(** * create_archive.py: the exclusion predicate and the archive traversal

    A shallow embedding of [src/create_archive.py].  The script packs a fixed
    list of root paths into [clean-machine-core.zip], skipping every path in
    which one of the exclusion patterns occurs.

    - Python [str] is [string]; [e in s] is [contains e s].
    - The working directory is a finite tree of [File] and [Dir] nodes; a
      directory lists its entries in the order [os.scandir] returns them.
    - [zipfile.ZipFile(zip_filename, 'w', ...)] creates or empties the
      archive file in the working directory, and fails where that name is a
      directory; the roots are processed in the directory it leaves.
    - [zipf.write], [print] and the directory listings of [os.walk] are
      effects on a [world]; an uncaught exception is [Raise]. *)

From Stdlib Require Import String Ascii List Bool Arith NArith Lia.
From Stdlib Require Import Permutation DecimalString DecimalN.
Import ListNotations.
Local Open Scope list_scope.
Local Open Scope string_scope.

(** ** Strings *)

Module Str.

(** [pat in s] of Python: [pat] occurs somewhere in [s]. *)
Fixpoint contains (pat s : string) : bool :=
  if prefix pat s then true
  else match s with
       | EmptyString => false
       | String _ s' => contains pat s'
       end.

(** The mathematical reading of "occurs as a substring". *)
Definition occurs_in (pat s : string) : Prop :=
  exists pre post, s = pre ++ pat ++ post.

(** [s.endswith("/")]. *)
Fixpoint ends_with_slash (s : string) : bool :=
  match s with
  | EmptyString => false
  | String c EmptyString => Ascii.eqb c "/"
  | String _ s' => ends_with_slash s'
  end.

(** [s.split("/")]. *)
Fixpoint split_slash (s : string) : list string :=
  match s with
  | EmptyString => [EmptyString]
  | String c s' =>
      if Ascii.eqb c "/" then EmptyString :: split_slash s'
      else match split_slash s' with
           | [] => [String c EmptyString]
           | h :: t => String c h :: t
           end
  end.

End Str.

(** ** The exclusion predicate *)

(** The local list [excludes] of [should_exclude]. *)
Definition excludes : list string :=
  [ "node_modules"; ".git"; "dist"; "build"; ".config";
    "attached_assets"; "public/uploads"; "public/tech_profiles";
    "public/images"; "public/assets"; "server/tests";
    ".jpg"; ".jpeg"; ".png"; ".gif"; ".svg"; ".webp"; ".ico";
    ".pdf"; ".xlsx"; ".docx"; ".txt"; ".mp4"; ".mov";
    ".tar.gz"; ".zip"; ".log" ].

(** The loop of [should_exclude] over a rule list: [return True] at the
    first rule found in [path_str], [return False] after the last one. *)
Fixpoint any_in (rules : list string) (path_str : string) : bool :=
  match rules with
  | [] => false
  | exclude :: rest =>
      if Str.contains exclude path_str then true else any_in rest path_str
  end.

Definition should_exclude (path_str : string) : bool :=
  any_in excludes path_str.

(** ** Paths *)

(** [Path(s)] for a relative POSIX path: pathlib splits at "/" and drops the
    empty and the "." components; [str] joins the parts again, and the path
    without parts prints as ".".  The root paths of the script are relative;
    a leading "/" and the meaning of ".." are outside this model. *)
Definition is_part (c : string) : bool :=
  negb (c =? "") && negb (c =? ".").

Definition Path (s : string) : list string :=
  filter is_part (Str.split_slash s).

Definition str (path : list string) : string :=
  match path with
  | [] => "."
  | _ => String.concat "/" path
  end.

(** [os.path.join(a, b)] of posixpath. *)
Definition join (a b : string) : string :=
  if prefix "/" b then b
  else if (a =? "") || Str.ends_with_slash a then a ++ b
  else a ++ "/" ++ b.

(** ** The directory tree *)

#[local] Unset Elimination Schemes.
Inductive node : Type :=
| File (data : string)
| Dir (entries : list (string * node)).
#[local] Set Elimination Schemes.

Fixpoint assoc (name : string) (entries : list (string * node)) : option node :=
  match entries with
  | [] => None
  | (k, n) :: rest => if k =? name then Some n else assoc name rest
  end.

Fixpoint lookup (n : node) (parts : list string) : option node :=
  match parts with
  | [] => Some n
  | c :: rest =>
      match n with
      | File _ => None
      | Dir entries =>
          match assoc c entries with
          | Some child => lookup child rest
          | None => None
          end
      end
  end.

(** What the operating system finds at the path string [s]. *)
Definition resolve (fs : node) (s : string) : option node :=
  lookup fs (Path s).

Definition is_file (fs : node) (path : list string) : bool :=
  match lookup fs path with
  | Some (File _) => true
  | _ => false
  end.

Definition is_dir (fs : node) (path : list string) : bool :=
  match lookup fs path with
  | Some (Dir _) => true
  | _ => false
  end.

(** The names [os.walk] puts in [files], in listing order. *)
Fixpoint filenames (entries : list (string * node)) : list string :=
  match entries with
  | [] => []
  | (name, File _) :: rest => name :: filenames rest
  | (_, Dir _) :: rest => filenames rest
  end.

(** ** Effects *)

Inductive result (A : Type) : Type :=
| Ok (a : A)
| Raise (exn : string).
Arguments Ok {A} a.
Arguments Raise {A} exn.

Definition bind {A B : Type} (m : result A) (k : A -> result B) : result B :=
  match m with
  | Ok a => k a
  | Raise e => Raise e
  end.

(** What [zipf.write(filename, arcname)] stores: the bytes of a regular
    file, or a bare directory entry. *)
Inductive member : Type :=
| Regular (data : string)
| Directory.

Record entry : Type := mkEntry {
  filename : string;
  arcname : string;
  content : member
}.

(** The archive under construction, the console, and the directories that
    [os.walk] has listed so far; each grows at its end. *)
Record world : Type := mkWorld {
  zip : list entry;
  stdout : list string;
  scanned : list string
}.

Definition empty_world : world := mkWorld [] [] [].

Definition print (line : string) (w : world) : world :=
  mkWorld (zip w) (stdout w ++ [line])%list (scanned w).

Definition scandir (top : string) (w : world) : world :=
  mkWorld (zip w) (stdout w) (scanned w ++ [top])%list.

Definition zipf_write (fs : node) (file arc : string) (w : world)
  : result world :=
  match resolve fs file with
  | Some (File data) =>
      Ok (mkWorld (zip w ++ [mkEntry file arc (Regular data)])%list
                  (stdout w) (scanned w))
  | Some (Dir _) =>
      Ok (mkWorld (zip w ++ [mkEntry file arc Directory])%list
                  (stdout w) (scanned w))
  | None => Raise "FileNotFoundError"
  end.

(** ** The traversal of [create_zip] *)

(** The inner loop [for file in files] at one level of the walk. *)
Fixpoint add_files (fs : node) (root : string) (files : list string)
  (w : world) : result world :=
  match files with
  | [] => Ok w
  | file :: rest =>
      let file_path := join root file in
      if negb (should_exclude file_path) then
        bind (zipf_write fs file_path file_path
                (print ("Adding file: " ++ file_path) w))
             (add_files fs root rest)
      else add_files fs root rest w
  end.

(** [for root, dirs, files in os.walk(top)] with the loop body run at each
    step, top-down: the directory [root] is listed, the body adds its files,
    and the walk then enters, in listing order, the sub-directories that the
    body left in [dirs], that is those whose joined path is not excluded. *)
Fixpoint walk (fs : node) (root : string) (n : node) (w : world)
  : result world :=
  match n with
  | File _ => Ok w
  | Dir entries =>
      bind (add_files fs root (filenames entries) (scandir root w))
        ((fix descend (es : list (string * node)) (w : world)
            : result world :=
            match es with
            | [] => Ok w
            | (_, File _) :: rest => descend rest w
            | (d, Dir _ as sub) :: rest =>
                if negb (should_exclude (join root d)) then
                  bind (walk fs (join root d) sub w) (descend rest)
                else descend rest w
            end) entries)
  end.

(** The same descent into the kept sub-directories, as a function of its
    own. *)
Fixpoint descend (fs : node) (root : string) (es : list (string * node))
  (w : world) : result world :=
  match es with
  | [] => Ok w
  | (_, File _) :: rest => descend fs root rest w
  | (d, Dir _ as sub) :: rest =>
      if negb (should_exclude (join root d)) then
        bind (walk fs (join root d) sub w) (descend fs root rest)
      else descend fs root rest w
  end.

(** [os.walk(top)] yields nothing when [top] cannot be listed. *)
Definition os_walk (fs : node) (top : string) (w : world) : result world :=
  match resolve fs top with
  | Some (Dir _ as n) => walk fs top n w
  | _ => Ok w
  end.

Definition zip_filename : string := "clean-machine-core.zip".

Definition includes : list string :=
  [ "client/src"; "server"; "shared/schema.ts"; "package.json";
    "tsconfig.json"; "drizzle.config.ts"; "tailwind.config.ts";
    "components.json"; "vite.config.ts"; "postcss.config.js" ].

(** The body of [for include in includes]. *)
Definition add_include (fs : node) (include : string) (w : world)
  : result world :=
  let path := Path include in
  if is_file fs path then
    if negb (should_exclude (str path)) then
      zipf_write fs (str path) (str path)
        (print ("Adding file: " ++ str path) w)
    else Ok w
  else if is_dir fs path then os_walk fs (str path) w
  else Ok w.

Fixpoint add_includes (fs : node) (roots : list string) (w : world)
  : result world :=
  match roots with
  | [] => Ok w
  | include :: rest => bind (add_include fs include w) (add_includes fs rest)
  end.

(** ** Opening the archive *)

(** The listing of a directory after [open(name, 'w')] in it: the file
    [name] is emptied where it exists and created where it does not. *)
Fixpoint truncate (name : string) (entries : list (string * node))
  : list (string * node) :=
  match entries with
  | [] => [(name, File "")]
  | (k, n) :: rest =>
      if k =? name then (k, File "") :: rest
      else (k, n) :: truncate name rest
  end.

(** [zipfile.ZipFile(file, 'w', zipfile.ZIP_DEFLATED)] for a file name
    [file] of the working directory [fs]: the file is opened for writing,
    which creates or empties it; a directory of that name cannot be opened
    for writing.  The result is the working directory after the open. *)
Definition ZipFile (fs : node) (file : string) : result node :=
  match fs with
  | File _ => Raise "NotADirectoryError"
  | Dir entries =>
      match assoc file entries with
      | Some (Dir _) => Raise "IsADirectoryError"
      | _ => Ok (Dir (truncate file entries))
      end
  end.

(** ** The summary line *)

Definition decimal (n : N) : string :=
  NilEmpty.string_of_uint (N.to_uint n).

(** [a / b] rounded to the nearest integer, ties to the even one. *)
Definition round_half_even (a b : N) : N :=
  let q := (a / b)%N in
  let r := (a mod b)%N in
  if (2 * r <? b)%N then q
  else if (b <? 2 * r)%N then (q + 1)%N
  else if N.even q then q else (q + 1)%N.

(** The value of [float(n)]: [n] rounded to a mantissa of 53 bits, ties to
    the even one.  A number below 2^53 is its own value. *)
Definition float_of (n : N) : N :=
  let e := (N.log2 n - 52)%N in
  (round_half_even n (2 ^ e) * 2 ^ e)%N.

(** The number of hundredths that [f"{size / (1024 * 1024):.2f}"] prints.
    The true division gives the double nearest to the quotient; dividing a
    double by 2^20 is exact, so that double is [float_of size / 2^20] (the
    size of a file is far below 2^1024, where the division overflows).  The
    format then rounds the exact value of the double, ties to even. *)
Definition hundredths (size : N) : N :=
  round_half_even (float_of size * 100) (1024 * 1024).

Definition format_2f (size : N) : string :=
  let h := hundredths size in
  decimal (h / 100) ++ "." ++ decimal (h mod 100 / 10) ++ decimal (h mod 10).

Definition newline : string := String (ascii_of_nat 10) EmptyString.

Definition summary (size : N) : string :=
  newline ++ "Created " ++ zip_filename ++ " (" ++ format_2f size ++ " MB)".

(** [create_zip()], run in the working directory [fs]: the archive is
    opened, the roots are processed in the directory as the open left it,
    and the summary is printed; [getsize] is the size in bytes of the
    closed archive file. *)
Definition create_zip (getsize : list entry -> N) (fs : node)
  : result world :=
  bind (ZipFile fs zip_filename)
    (fun opened =>
       bind (add_includes opened includes empty_world)
         (fun w => Ok (print (summary (getsize (zip w))) w))).

(** ** Vocabulary of the specification *)

(** A name a directory can hold: not empty, not "." or "..", no "/". *)
Definition valid_name (s : string) : bool :=
  negb (s =? "") && negb (s =? ".") && negb (s =? "..")
  && negb (Str.contains "/" s).

Fixpoint distinct (l : list string) : bool :=
  match l with
  | [] => true
  | x :: rest => negb (existsb (String.eqb x) rest) && distinct rest
  end.

(** A well-formed tree: in every directory the names are valid and no name
    occurs twice. *)
Fixpoint wf (n : node) : bool :=
  match n with
  | File _ => true
  | Dir entries =>
      forallb valid_name (map fst entries)
      && distinct (map fst entries)
      && (fix all (es : list (string * node)) : bool :=
            match es with
            | [] => true
            | (_, child) :: rest => wf child && all rest
            end) entries
  end.

Fixpoint wf_entries (es : list (string * node)) : bool :=
  match es with
  | [] => true
  | (_, child) :: rest => wf child && wf_entries rest
  end.

(** [s] is the decimal numeral of [n], with no leading zero: its digits
    read as [n]. *)
Definition numeral (s : string) (n : N) : Prop :=
  exists d,
    NilEmpty.uint_of_string s = Some d
    /\ Decimal.unorm d = d /\ N.of_uint d = n.

(** [s] is a string of [k] decimal digits that read as [n]. *)
Definition digits (k : nat) (s : string) (n : N) : Prop :=
  String.length s = k
  /\ exists d, NilEmpty.uint_of_string s = Some d /\ N.of_uint d = n.

(** [h] hundredths of a megabyte is [size] bytes rounded to the nearest
    hundredth, a tie going to the even one. *)
Definition nearest_hundredth (size h : N) : Prop :=
  (2 * (h * (1024 * 1024)) <= 2 * (size * 100) + 1024 * 1024)%N
  /\ (2 * (size * 100) <= 2 * (h * (1024 * 1024)) + 1024 * 1024)%N
  /\ ((2 * (h * (1024 * 1024)) = 2 * (size * 100) + 1024 * 1024
       \/ 2 * (size * 100) = 2 * (h * (1024 * 1024)) + 1024 * 1024)%N ->
      N.even h = true).

(** The archive can be opened for writing: the working directory is a
    directory, and the name of the archive is not that of a directory in
    it. *)
Definition can_open (fs : node) : bool :=
  is_dir fs [] && negb (is_dir fs (Path zip_filename)).

(** [file_at root n above p data]: below the directory [n], walked under
    the path [root], lies a file with bytes [data]; the walk would call it
    [p], and [above] are the paths of the sub-directories of [n] it lies
    under, outermost first. *)
Inductive file_at : string -> node -> list string -> string -> string -> Prop :=
| file_here root es name data :
    In (name, File data) es ->
    file_at root (Dir es) [] (join root name) data
| file_below root es d sub above p data :
    In (d, sub) es ->
    file_at (join root d) sub above p data ->
    file_at root (Dir es) (join root d :: above) p data.

(** [reachable fs roots under p data]: a file reachable from the root list,
    that is a root that is a file, or a file below a root that is a
    directory; [under] are the paths of the directories it lies under, the
    root directory first. *)
Inductive reachable (fs : node) (roots : list string)
  : list string -> string -> string -> Prop :=
| reach_file include data :
    In include roots ->
    lookup fs (Path include) = Some (File data) ->
    reachable fs roots [] (str (Path include)) data
| reach_below include es above p data :
    In include roots ->
    lookup fs (Path include) = Some (Dir es) ->
    file_at (str (Path include)) (Dir es) above p data ->
    reachable fs roots (str (Path include) :: above) p data.

(** Two listings of one tree: the same names with the same contents, each
    directory possibly listed in another order. *)
Inductive same_tree : node -> node -> Prop :=
| same_file data : same_tree (File data) (File data)
| same_dir es1 es2 : same_entries es1 es2 -> same_tree (Dir es1) (Dir es2)
with same_entries : list (string * node) -> list (string * node) -> Prop :=
| same_nil : same_entries [] []
| same_cons name n1 n2 es1 es2 :
    same_tree n1 n2 -> same_entries es1 es2 ->
    same_entries ((name, n1) :: es1) ((name, n2) :: es2)
| same_swap a b es : same_entries (a :: b :: es) (b :: a :: es)
| same_trans es1 es2 es3 :
    same_entries es1 es2 -> same_entries es2 es3 -> same_entries es1 es3.

Scheme same_tree_mut := Minimality for same_tree Sort Prop
  with same_entries_mut := Minimality for same_entries Sort Prop.

(** Two lookups that agree up to the listing order below them. *)
Definition same_found (a b : option node) : Prop :=
  match a, b with
  | Some x, Some y => same_tree x y
  | None, None => True
  | _, _ => False
  end.

(** The entries and console lines a walk produces, read off the tree. *)
Definition file_entry (root : string) (name data : string) : entry :=
  mkEntry (join root name) (join root name) (Regular data).

Fixpoint level_entries (root : string) (es : list (string * node))
  : list entry :=
  match es with
  | [] => []
  | (name, File data) :: rest =>
      if negb (should_exclude (join root name))
      then file_entry root name data :: level_entries root rest
      else level_entries root rest
  | (_, Dir _) :: rest => level_entries root rest
  end.

Fixpoint tree_entries (root : string) (n : node) : list entry :=
  match n with
  | File _ => []
  | Dir entries =>
      (level_entries root entries ++
       (fix below (es : list (string * node)) : list entry :=
          match es with
          | [] => []
          | (_, File _) :: rest => below rest
          | (d, Dir _ as sub) :: rest =>
              if negb (should_exclude (join root d))
              then (tree_entries (join root d) sub ++ below rest)%list
              else below rest
          end) entries)%list
  end.

Fixpoint below_entries (root : string) (es : list (string * node))
  : list entry :=
  match es with
  | [] => []
  | (_, File _) :: rest => below_entries root rest
  | (d, Dir _ as sub) :: rest =>
      if negb (should_exclude (join root d))
      then (tree_entries (join root d) sub ++ below_entries root rest)%list
      else below_entries root rest
  end.

Fixpoint tree_dirs (root : string) (n : node) : list string :=
  match n with
  | File _ => []
  | Dir entries =>
      root ::
      (fix below (es : list (string * node)) : list string :=
         match es with
         | [] => []
         | (_, File _) :: rest => below rest
         | (d, Dir _ as sub) :: rest =>
             if negb (should_exclude (join root d))
             then (tree_dirs (join root d) sub ++ below rest)%list
             else below rest
         end) entries
  end.

Fixpoint below_dirs (root : string) (es : list (string * node))
  : list string :=
  match es with
  | [] => []
  | (_, File _) :: rest => below_dirs root rest
  | (d, Dir _ as sub) :: rest =>
      if negb (should_exclude (join root d))
      then (tree_dirs (join root d) sub ++ below_dirs root rest)%list
      else below_dirs root rest
  end.

Definition adding_line (e : entry) : string :=
  "Adding file: " ++ filename e.

(** What one root contributes on a well-formed tree. *)
Definition root_entries (fs : node) (include : string) : list entry :=
  let path := Path include in
  match lookup fs path with
  | Some (File data) =>
      if negb (should_exclude (str path))
      then [mkEntry (str path) (str path) (Regular data)]
      else []
  | Some (Dir _ as n) => tree_entries (str path) n
  | None => []
  end.

Definition root_dirs (fs : node) (include : string) : list string :=
  match lookup fs (Path include) with
  | Some (Dir _ as n) => tree_dirs (str (Path include)) n
  | _ => []
  end.

(** ** Path strings and worlds in the proofs *)

Definition no_slash (s : string) : Prop := Str.contains "/" s = false.

(** The parts of a parsed path: not empty, not ".", and free of "/". *)
Definition part (c : string) : Prop := is_part c = true /\ no_slash c.

(** A walk root keeps [os.path.join] on its third branch: it is not empty
    and does not end in "/". *)
Definition good_root (root : string) : Prop :=
  root <> "" /\ Str.ends_with_slash root = false.

(** The world [w] after the entries [es] were written and announced and
    the directories [ds] were listed. *)
Definition extend (w : world) (es : list entry) (ds : list string) : world :=
  mkWorld (zip w ++ es)%list
          (stdout w ++ map adding_line es)%list
          (scanned w ++ ds)%list.

(** What the walk does below a well-formed directory [n] found at
    [root]: it completes, having written the entries and listed the
    directories read off the tree. *)
Definition walks (fs : node) (n : node) : Prop :=
  forall root w,
    wf n = true -> good_root root -> lookup fs (Path root) = Some n ->
    walk fs root n w = Ok (extend w (tree_entries root n) (tree_dirs root n)).

(** From [w] to [w'] entries were only added at the end of the archive,
    each announced by its line, stored under the path it was read from, and
    that path not excluded. *)
Definition grows (w w' : world) : Prop :=
  exists es,
    zip w' = (zip w ++ es)%list
    /\ stdout w' = (stdout w ++ map adding_line es)%list
    /\ Forall (fun e => filename e = arcname e
                        /\ should_exclude (arcname e) = false) es.

(** ** A sample tree *)

Definition sample : node :=
  Dir [ ("package.json", File "{}");
        ("clean-machine-core.zip", File "old");
        ("server", Dir [ ("index.ts", File "main");
                         ("notes.txt", File "todo");
                         ("tests", Dir [ ("foo.ts", File "test") ]);
                         ("empty", Dir []);
                         ("lib", Dir [ ("util.ts", File "util");
                                       ("logo.png", File "img") ]) ]);
        ("client", Dir [ ("src", Dir [ ("App.tsx", File "app") ]);
                         ("dist", Dir [ ("bundle.js", File "js") ]) ]) ].

Definition sample_size (z : list entry) : N := 131072.

(** The sample tree as another listing could return it. *)
Definition sample_relisted : node :=
  Dir [ ("client", Dir [ ("dist", Dir [ ("bundle.js", File "js") ]);
                         ("src", Dir [ ("App.tsx", File "app") ]) ]);
        ("server", Dir [ ("lib", Dir [ ("logo.png", File "img");
                                       ("util.ts", File "util") ]);
                         ("empty", Dir []);
                         ("notes.txt", File "todo");
                         ("tests", Dir [ ("foo.ts", File "test") ]);
                         ("index.ts", File "main") ]);
        ("clean-machine-core.zip", File "old");
        ("package.json", File "{}") ].

(** A tree in which the root "vite.config.ts" names a directory. *)
Definition config_tree : node :=
  Dir [ ("vite.config.ts", Dir [ ("index.ts", File "cfg") ]) ].

(** The first two characters of a string. *)
Definition head2 (s : string) : string := substring 0 2 s.

(** The roots of the script that pass the exclusion predicate, and those
    that do not: ".config" occurs in each of the latter. *)
Definition kept_roots : list string :=
  [ "client/src"; "server"; "shared/schema.ts"; "package.json";
    "tsconfig.json"; "components.json" ].

Definition dropped_roots : list string :=
  [ "drizzle.config.ts"; "tailwind.config.ts"; "vite.config.ts";
    "postcss.config.js" ].

(** The sample tree with entries outside every root added and changed. *)
Definition sample_elsewhere : node :=
  Dir [ ("README.md", File "readme");
        ("package.json", File "{}");
        ("clean-machine-core.zip", File "older");
        ("node_modules", Dir [ ("left-pad", Dir []) ]);
        ("server", Dir [ ("index.ts", File "main");
                         ("notes.txt", File "todo");
                         ("tests", Dir [ ("foo.ts", File "test") ]);
                         ("empty", Dir []);
                         ("lib", Dir [ ("util.ts", File "util");
                                       ("logo.png", File "img") ]) ]);
        ("client", Dir [ ("src", Dir [ ("App.tsx", File "app") ]);
                         ("public", Dir [ ("index.html", File "html") ]) ]) ].

(** * Properties *)

(** ** Substrings *)

Lemma prefix_app (p s : string) :
  prefix p s = true <-> exists post, s = p ++ post.
Proof.
  revert s; induction p as [|c p IH]; intros s.
  - split; [intros _; now exists s | now destruct s].
  - destruct s as [|c' s]; simpl.
    + split; [discriminate | intros [post H]; discriminate].
    + destruct (ascii_dec c c') as [->|Hne].
      * rewrite IH. split; intros [post H]; exists post.
        -- now rewrite H.
        -- now inversion H.
      * split; [discriminate|].
        intros [post H]; inversion H; subst; now destruct Hne.
Qed.

Lemma contains_step (pat s : string) :
  Str.contains pat s =
  prefix pat s || match s with
                  | EmptyString => false
                  | String _ s' => Str.contains pat s'
                  end.
Proof.
  destruct s as [|c s]; cbn [Str.contains];
    match goal with
    | |- context [prefix ?a ?b] => now destruct (prefix a b)
    end.
Qed.

Lemma contains_occurs (pat s : string) :
  Str.contains pat s = true <-> Str.occurs_in pat s.
Proof.
  unfold Str.occurs_in. induction s as [|c s IH].
  - rewrite contains_step, orb_false_r, prefix_app. split.
    + intros [post H]. now exists EmptyString, post.
    + intros [[|c pre] [post H]]; [now exists post | discriminate].
  - rewrite contains_step, orb_true_iff, prefix_app, IH. split.
    + intros [[post H] | (pre & post & H)].
      * now exists EmptyString, post.
      * exists (String c pre), post. simpl. now rewrite H.
    + intros [[|c' pre] [post H]].
      * left. now exists post.
      * right. exists pre, post. now inversion H.
Qed.

Lemma occurs_in_app (pat a s b : string) :
  Str.occurs_in pat s -> Str.occurs_in pat (a ++ s ++ b).
Proof.
  intros (pre & post & ->). exists (a ++ pre), (post ++ b).
  induction a as [|c a IH]; simpl.
  - clear. induction pre as [|c pre IH]; simpl.
    + clear. induction pat as [|c pat IH]; simpl; [reflexivity|].
      now rewrite IH.
    + now rewrite IH.
  - now rewrite IH.
Qed.

Lemma any_in_true (rules : list string) (p : string) :
  any_in rules p = true <->
  exists pat, In pat rules /\ Str.contains pat p = true.
Proof.
  induction rules as [|r rules IH]; simpl.
  - split; [discriminate | intros (pat & [] & _)].
  - destruct (Str.contains r p) eqn:Hr.
    + split; [intros _; exists r; auto | reflexivity].
    + rewrite IH. split; intros (pat & Hin & Hc).
      * exists pat; auto.
      * destruct Hin as [->|Hin]; [congruence | exists pat; auto].
Qed.

Lemma should_exclude_occurs (p : string) :
  should_exclude p = true <->
  exists pat, In pat excludes /\ Str.occurs_in pat p.
Proof.
  unfold should_exclude. rewrite any_in_true.
  split; intros (pat & Hin & H); exists pat; split; auto;
    now apply contains_occurs.
Qed.

(** A path that has an excluded path inside it is excluded as well. *)
Lemma should_exclude_inside (a s b : string) :
  should_exclude s = true -> should_exclude (a ++ s ++ b) = true.
Proof.
  rewrite !should_exclude_occurs. intros (pat & Hin & H).
  exists pat; split; auto. now apply occurs_in_app.
Qed.

(** C1: for every path string [p], [should_exclude p] is [true] if and only
    if one of the configured patterns occurs in [p] as a substring, and it is
    [false] otherwise; the result is one of the two, fixed by [p] and the
    rule list alone. *)
Theorem C1_should_exclude_iff_some_pattern_occurs (p : string) :
  (should_exclude p = true <->
   exists pat, In pat excludes /\ Str.occurs_in pat p)
  /\ (should_exclude p = false <->
      forall pat, In pat excludes -> ~ Str.occurs_in pat p).
Proof.
  split; [apply should_exclude_occurs|].
  split.
  - intros Hf pat Hin Hocc.
    assert (should_exclude p = true)
      by (apply should_exclude_occurs; eauto).
    congruence.
  - intros Hnone. destruct (should_exclude p) eqn:E; [|reflexivity].
    apply should_exclude_occurs in E. destruct E as (pat & Hin & Hocc).
    now destruct (Hnone pat Hin).
Qed.

(** C6: for every path string and every permutation of the rule list, the
    loop of [should_exclude] returns the same answer on the permuted list as
    on the original one. *)
Theorem C6_rule_order_is_irrelevant (rules rules' : list string) (p : string) :
  Permutation rules rules' -> any_in rules p = any_in rules' p.
Proof.
  induction 1 as [|r l l' _ IH|r r' l|l l' l'' _ IH1 _ IH2]; simpl.
  - reflexivity.
  - now rewrite IH.
  - destruct (Str.contains r p), (Str.contains r' p); reflexivity.
  - congruence.
Qed.

Lemma C6_rule_order_witness :
  any_in excludes "server/tests/foo.ts"
  = any_in (rev excludes) "server/tests/foo.ts".
Proof.
  apply C6_rule_order_is_irrelevant. apply Permutation_rev.
Defined.

(** ** Path strings *)

Lemma no_slash_cons (c : ascii) (s : string) :
  no_slash (String c s) <-> c <> "/"%char /\ no_slash s.
Proof.
  unfold no_slash. rewrite contains_step, orb_false_iff. cbn [prefix].
  destruct (ascii_dec "/" c) as [<-|Hne].
  - split; intros [H _]; [now destruct s | now destruct H].
  - split; intros [_ H]; auto.
Qed.

Lemma no_slash_prefix (s : string) : no_slash s -> prefix "/" s = false.
Proof.
  destruct s as [|c s]; [reflexivity|].
  intros [Hc _]%no_slash_cons. cbn [prefix].
  destruct (ascii_dec "/" c); [now destruct Hc | reflexivity].
Qed.

Lemma eqb_slash (c : ascii) : c <> "/"%char -> Ascii.eqb c "/" = false.
Proof. intros H. now apply Ascii.eqb_neq. Qed.

Lemma split_slash_not_nil (s : string) : Str.split_slash s <> [].
Proof.
  induction s as [|c s IH]; simpl; [discriminate|].
  destruct (Ascii.eqb c "/"); [discriminate|].
  destruct (Str.split_slash s); discriminate.
Qed.

Lemma split_slash_no_slash (s : string) :
  no_slash s -> Str.split_slash s = [s].
Proof.
  induction s as [|c s IH]; [reflexivity|].
  intros [Hc Hs]%no_slash_cons. simpl.
  now rewrite (eqb_slash _ Hc), (IH Hs).
Qed.

Lemma split_slash_app (a b : string) :
  Str.split_slash (a ++ "/" ++ b)
  = (Str.split_slash a ++ Str.split_slash b)%list.
Proof.
  induction a as [|c a IH]; simpl; [reflexivity|].
  destruct (Ascii.eqb c "/"); simpl in *.
  - now rewrite IH.
  - rewrite IH. pose proof (split_slash_not_nil a) as Hn.
    destruct (Str.split_slash a); [now destruct Hn | reflexivity].
Qed.

Lemma split_slash_parts (s : string) : Forall no_slash (Str.split_slash s).
Proof.
  induction s as [|c s IH]; simpl.
  - constructor; [reflexivity | constructor].
  - destruct (Ascii.eqb c "/") eqn:E.
    + constructor; [reflexivity | assumption].
    + pose proof (split_slash_not_nil s) as Hn.
      destruct (Str.split_slash s) as [|h t]; [now destruct Hn|].
      inversion IH; subst. constructor; auto.
      apply no_slash_cons. split; auto.
      now apply Ascii.eqb_neq.
Qed.

Lemma Path_parts (s : string) : Forall part (Path s).
Proof.
  unfold Path. pose proof (split_slash_parts s) as H.
  induction H as [|x l Hx _ IH]; simpl; [constructor|].
  destruct (is_part x) eqn:E; [constructor; [split|]; auto | exact IH].
Qed.

Lemma valid_name_part (s : string) : valid_name s = true -> part s.
Proof.
  unfold valid_name, part, is_part, no_slash.
  rewrite !andb_true_iff, !negb_true_iff. tauto.
Qed.

Lemma part_not_empty (c : string) : part c -> c <> "".
Proof. intros [H _] ->. discriminate. Qed.

Lemma Path_snoc (root name : string) :
  part name -> Path (root ++ "/" ++ name) = (Path root ++ [name])%list.
Proof.
  intros [Hp Hs]. unfold Path.
  rewrite split_slash_app, filter_app, (split_slash_no_slash _ Hs).
  simpl. now rewrite Hp.
Qed.

Lemma Path_single (name : string) : part name -> Path name = [name].
Proof.
  intros [Hp Hs]. unfold Path. rewrite (split_slash_no_slash _ Hs).
  simpl. now rewrite Hp.
Qed.

Lemma concat_cons2 (x y : string) (l : list string) :
  String.concat "/" (x :: y :: l) = x ++ "/" ++ String.concat "/" (y :: l).
Proof. reflexivity. Qed.

Lemma Path_concat (p : list string) :
  Forall part p -> p <> [] -> Path (String.concat "/" p) = p.
Proof.
  induction 1 as [|x l Hx Hl IH]; intros Hne; [now destruct Hne|].
  destruct l as [|y l].
  - now apply Path_single.
  - rewrite concat_cons2. destruct Hx as [Hp Hs]. unfold Path in *.
    rewrite split_slash_app, filter_app, (split_slash_no_slash _ Hs).
    simpl filter at 1. rewrite Hp. simpl. f_equal.
    apply IH. discriminate.
Qed.

(** Parsing what [str] printed gives the path back. *)
Lemma Path_str (p : list string) : Forall part p -> Path (str p) = p.
Proof.
  intros H. destruct p as [|x l]; [reflexivity|].
  unfold str. apply Path_concat; [assumption | discriminate].
Qed.

Lemma str_Path_idem (s : string) : Path (str (Path s)) = Path s.
Proof. apply Path_str, Path_parts. Qed.

Lemma ends_with_slash_app (a b : string) :
  b <> "" -> Str.ends_with_slash (a ++ b) = Str.ends_with_slash b.
Proof.
  intros Hb. induction a as [|c a IH]; [reflexivity|].
  simpl. destruct (a ++ b) eqn:E; [|assumption].
  destruct a, b; try discriminate. now destruct Hb.
Qed.

Lemma no_slash_ends (s : string) : no_slash s -> Str.ends_with_slash s = false.
Proof.
  induction s as [|c s IH]; [reflexivity|].
  intros [Hc Hs]%no_slash_cons. simpl.
  destruct s; [now apply eqb_slash | now apply IH].
Qed.

Lemma good_root_snoc (root name : string) :
  part name -> good_root (root ++ "/" ++ name).
Proof.
  intros Hp. split.
  - destruct root; discriminate.
  - change (root ++ "/" ++ name) with (root ++ String "/" name).
    rewrite ends_with_slash_app by discriminate.
    simpl. pose proof (part_not_empty _ Hp).
    destruct name; [congruence|]. now apply no_slash_ends, Hp.
Qed.

Lemma good_root_str (p : list string) : Forall part p -> good_root (str p).
Proof.
  intros H. destruct p as [|x l]; [split; [discriminate | reflexivity]|].
  unfold str. revert x H. induction l as [|y l IH]; intros x H.
  - inversion H; subst. split; [now apply part_not_empty|].
    now apply no_slash_ends, H2.
  - rewrite concat_cons2. inversion H; subst.
    destruct (IH y H3) as [Hne He].
    remember (String.concat "/" (y :: l)) as t eqn:Et. clear Et. split.
    + destruct x; discriminate.
    + change (x ++ "/" ++ t) with (x ++ String "/" t).
      rewrite ends_with_slash_app by discriminate.
      destruct t; [congruence | exact He].
Qed.

Lemma join_good (root name : string) :
  good_root root -> part name -> join root name = root ++ "/" ++ name.
Proof.
  intros [Hne He] [_ Hs]. unfold join.
  rewrite (no_slash_prefix _ Hs), He, orb_false_r.
  destruct (String.eqb_spec root ""); [contradiction | reflexivity].
Qed.

(** ** Trees *)

Lemma node_ind' (P : node -> Prop) :
  (forall data, P (File data)) ->
  (forall es, Forall (fun e => P (snd e)) es -> P (Dir es)) ->
  forall n, P n.
Proof.
  intros HF HD. fix IH 1. intros [data|es]; [apply HF|].
  apply HD. induction es as [|[k c] es IHes]; constructor.
  - apply IH.
  - exact IHes.
Qed.

Lemma bind_ext {A B : Type} (m : result A) (k1 k2 : A -> result B) :
  (forall a, k1 a = k2 a) -> bind m k1 = bind m k2.
Proof. intros H. destruct m; simpl; [apply H | reflexivity]. Qed.

Lemma walk_Dir (fs : node) (root : string) (es : list (string * node))
  (w : world) :
  walk fs root (Dir es) w
  = bind (add_files fs root (filenames es) (scandir root w))
         (descend fs root es).
Proof.
  cbn [walk]. apply bind_ext. clear w.
  induction es as [|[d [data|sub]] es IH]; intros w; cbn [descend].
  - reflexivity.
  - apply IH.
  - destruct (negb (should_exclude (join root d))); [|apply IH].
    apply bind_ext, IH.
Qed.

Lemma tree_entries_Dir (root : string) (es : list (string * node)) :
  tree_entries root (Dir es)
  = (level_entries root es ++ below_entries root es)%list.
Proof.
  cbn [tree_entries]. f_equal.
  induction es as [|[d [data|sub]] es IH]; cbn [below_entries].
  - reflexivity.
  - apply IH.
  - destruct (negb (should_exclude (join root d))); [|apply IH].
    f_equal. apply IH.
Qed.

Lemma tree_dirs_Dir (root : string) (es : list (string * node)) :
  tree_dirs root (Dir es) = root :: below_dirs root es.
Proof.
  cbn [tree_dirs]. f_equal.
  induction es as [|[d [data|sub]] es IH]; cbn [below_dirs].
  - reflexivity.
  - apply IH.
  - destruct (negb (should_exclude (join root d))); [|apply IH].
    f_equal. apply IH.
Qed.

Lemma wf_Dir (es : list (string * node)) :
  wf (Dir es)
  = forallb valid_name (map fst es) && distinct (map fst es) && wf_entries es.
Proof.
  reflexivity.
Qed.

Lemma wf_entries_In (es : list (string * node)) (k : string) (n : node) :
  wf_entries es = true -> In (k, n) es -> wf n = true.
Proof.
  induction es as [|[d c] es IH]; cbn [wf_entries]; [intros _ []|].
  intros [Hc Hes]%andb_true_iff [Heq|Hin]; [now inversion Heq; subst | auto].
Qed.

Lemma valid_names_In (es : list (string * node)) (k : string) (n : node) :
  forallb valid_name (map fst es) = true -> In (k, n) es ->
  valid_name k = true.
Proof.
  rewrite forallb_forall. intros H Hin. apply H.
  change k with (fst (k, n)). now apply in_map.
Qed.

Lemma existsb_eqb_false (k : string) (l : list string) :
  existsb (String.eqb k) l = false -> ~ In k l.
Proof.
  intros H Hin. assert (existsb (String.eqb k) l = true); [|congruence].
  apply existsb_exists. exists k. split; [assumption | apply String.eqb_refl].
Qed.

Lemma distinct_NoDup (l : list string) : distinct l = true <-> NoDup l.
Proof.
  induction l as [|x l IH]; simpl.
  - split; [constructor | reflexivity].
  - rewrite andb_true_iff, negb_true_iff, IH. split.
    + intros [Hx Hl]. constructor; [now apply existsb_eqb_false | assumption].
    + intros Hnd. inversion Hnd; subst. split; [|assumption].
      destruct (existsb (String.eqb x) l) eqn:E; [|reflexivity].
      apply existsb_exists in E. destruct E as (y & Hy & Heq).
      apply String.eqb_eq in Heq. now subst.
Qed.

Lemma assoc_In (es : list (string * node)) (k : string) (n : node) :
  NoDup (map fst es) -> In (k, n) es -> assoc k es = Some n.
Proof.
  induction es as [|[d c] es IH]; simpl; [intros _ []|].
  intros Hnd [Heq|Hin]; inversion Hnd; subst.
  - inversion Heq; subst. now rewrite String.eqb_refl.
  - destruct (String.eqb_spec d k) as [->|Hne]; [|auto].
    exfalso. apply H1. change k with (fst (k, n)). now apply in_map.
Qed.

Lemma assoc_Some_In (es : list (string * node)) (k : string) (n : node) :
  assoc k es = Some n -> In (k, n) es.
Proof.
  induction es as [|[d c] es IH]; simpl; [discriminate|].
  destruct (String.eqb_spec d k) as [->|Hne].
  - intros [= ->]. now left.
  - intros H. right. auto.
Qed.

Lemma lookup_app (fs : node) (p q : list string) :
  lookup fs (p ++ q)
  = match lookup fs p with
    | Some n => lookup n q
    | None => None
    end.
Proof.
  revert fs. induction p as [|c p IH]; intros fs; [reflexivity|].
  simpl. destruct fs as [data|es]; [reflexivity|].
  destruct (assoc c es); [apply IH | reflexivity].
Qed.

Lemma lookup_wf (fs : node) (p : list string) (n : node) :
  wf fs = true -> lookup fs p = Some n -> wf n = true.
Proof.
  revert fs. induction p as [|c p IH]; intros fs Hwf; simpl.
  - now intros [= <-].
  - destruct fs as [data|es]; [discriminate|].
    destruct (assoc c es) as [child|] eqn:E; [|discriminate].
    apply IH. rewrite wf_Dir in Hwf.
    apply andb_true_iff in Hwf. destruct Hwf as [_ Hes].
    apply (wf_entries_In es c child Hes), assoc_Some_In, E.
Qed.

Lemma extend_nil (w : world) : extend w [] [] = w.
Proof. destruct w. unfold extend. simpl. now rewrite !app_nil_r. Qed.

Lemma extend_extend (w : world) (e1 e2 : list entry) (d1 d2 : list string) :
  extend (extend w e1 d1) e2 d2 = extend w (e1 ++ e2) (d1 ++ d2).
Proof.
  unfold extend. simpl. now rewrite map_app, !app_assoc.
Qed.

(** ** The walk on a well-formed tree *)

Section Walk.

Variable fs : node.

Lemma lookup_child (root : string) (es : list (string * node))
  (name : string) (n : node) :
  good_root root -> lookup fs (Path root) = Some (Dir es) ->
  NoDup (map fst es) -> valid_name name = true -> In (name, n) es ->
  lookup fs (Path (join root name)) = Some n.
Proof.
  intros Hg Hl Hnd Hv Hin. apply valid_name_part in Hv.
  rewrite (join_good _ _ Hg Hv), (Path_snoc _ _ Hv), lookup_app, Hl.
  simpl. now rewrite (assoc_In _ _ _ Hnd Hin).
Qed.

Lemma zipf_write_file (root : string) (es : list (string * node))
  (name data : string) (w : world) :
  good_root root -> lookup fs (Path root) = Some (Dir es) ->
  NoDup (map fst es) -> valid_name name = true -> In (name, File data) es ->
  zipf_write fs (join root name) (join root name)
    (print ("Adding file: " ++ join root name) w)
  = Ok (extend w [file_entry root name data] []).
Proof.
  intros Hg Hl Hnd Hv Hin. unfold zipf_write, resolve.
  rewrite (lookup_child _ _ _ _ Hg Hl Hnd Hv Hin).
  unfold extend, print, file_entry, adding_line. simpl.
  now rewrite app_nil_r.
Qed.

Lemma add_files_ok (root : string) (es es' : list (string * node))
  (w : world) :
  good_root root -> lookup fs (Path root) = Some (Dir es) ->
  NoDup (map fst es) -> forallb valid_name (map fst es) = true ->
  incl es' es ->
  add_files fs root (filenames es') w
  = Ok (extend w (level_entries root es') []).
Proof.
  intros Hg Hl Hnd Hv. revert w.
  induction es' as [|[name [data|sub]] es' IH]; intros w Hincl;
    cbn [filenames add_files level_entries].
  - now rewrite extend_nil.
  - assert (Hin : In (name, File data) es) by (apply Hincl; now left).
    assert (Hincl' : incl es' es) by (intros x Hx; apply Hincl; now right).
    destruct (negb (should_exclude (join root name))).
    + rewrite (zipf_write_file _ _ _ _ _ Hg Hl Hnd
                 (valid_names_In _ _ _ Hv Hin) Hin).
      cbn [bind]. rewrite (IH _ Hincl'), extend_extend. reflexivity.
    + now apply IH.
  - apply IH. intros x Hx; apply Hincl; now right.
Qed.

Lemma descend_ok (root : string) (es es' : list (string * node))
  (w : world) :
  good_root root -> lookup fs (Path root) = Some (Dir es) ->
  NoDup (map fst es) -> forallb valid_name (map fst es) = true ->
  wf_entries es = true -> incl es' es ->
  Forall (fun e => walks fs (snd e)) es' ->
  descend fs root es' w
  = Ok (extend w (below_entries root es') (below_dirs root es')).
Proof.
  intros Hg Hl Hnd Hv Hwf. revert w.
  induction es' as [|[d [data|sub]] es' IH]; intros w Hincl HP;
    cbn [descend below_entries below_dirs].
  - now rewrite extend_nil.
  - apply IH; [intros x Hx; apply Hincl; now right | now inversion HP].
  - assert (Hin : In (d, Dir sub) es) by (apply Hincl; now left).
    assert (Hincl' : incl es' es) by (intros x Hx; apply Hincl; now right).
    inversion HP as [|? ? Hhead Htail]; subst.
    cbn [snd] in Hhead. unfold walks in Hhead.
    destruct (negb (should_exclude (join root d))); [|now apply IH].
    pose proof (valid_names_In _ _ _ Hv Hin) as Hd.
    rewrite (Hhead (join root d) w).
    + cbn [bind]. rewrite (IH _ Hincl' Htail), extend_extend. reflexivity.
    + exact (wf_entries_In _ _ _ Hwf Hin).
    + rewrite (join_good _ _ Hg (valid_name_part _ Hd)).
      apply good_root_snoc, valid_name_part, Hd.
    + exact (lookup_child _ _ _ _ Hg Hl Hnd Hd Hin).
Qed.

Lemma walk_ok (n : node) : walks fs n.
Proof.
  induction n as [data|es IH] using node_ind'; intros root w Hwf Hg Hl.
  - simpl. now rewrite extend_nil.
  - rewrite wf_Dir, !andb_true_iff in Hwf. destruct Hwf as [[Hv Hd] Hes].
    apply distinct_NoDup in Hd.
    rewrite walk_Dir, tree_entries_Dir, tree_dirs_Dir.
    replace (scandir root w) with (extend w [] [root])
      by (unfold extend, scandir; simpl; now rewrite !app_nil_r).
    rewrite (add_files_ok root es es _ Hg Hl Hd Hv (incl_refl _)).
    cbn [bind].
    rewrite (descend_ok root es es _ Hg Hl Hd Hv Hes (incl_refl _) IH).
    now rewrite !extend_extend.
Qed.

End Walk.

(** ** One root, and the root list *)

Lemma resolve_str (fs : node) (include : string) :
  resolve fs (str (Path include)) = lookup fs (Path include).
Proof. unfold resolve. now rewrite str_Path_idem. Qed.

(** A root that is a file: written under its path string unless that
    string is excluded.  No assumption on the tree is needed. *)
Lemma add_include_file (fs : node) (include data : string) (w : world) :
  lookup fs (Path include) = Some (File data) ->
  add_include fs include w
  = if should_exclude (str (Path include)) then Ok w
    else Ok (extend w [mkEntry (str (Path include)) (str (Path include))
                         (Regular data)] []).
Proof.
  intros Hl. unfold add_include, is_file. rewrite Hl.
  destruct (should_exclude (str (Path include))); [reflexivity|].
  cbn [negb]. unfold zipf_write. rewrite resolve_str, Hl.
  unfold extend, print, adding_line. simpl. now rewrite app_nil_r.
Qed.

Lemma add_include_missing (fs : node) (include : string) (w : world) :
  is_file fs (Path include) = false -> is_dir fs (Path include) = false ->
  add_include fs include w = Ok w.
Proof. intros Hf Hd. unfold add_include. now rewrite Hf, Hd. Qed.

Lemma add_include_ok (fs : node) (include : string) (w : world) :
  wf fs = true ->
  add_include fs include w
  = Ok (extend w (root_entries fs include) (root_dirs fs include)).
Proof.
  intros Hwf. unfold root_entries, root_dirs.
  destruct (lookup fs (Path include)) as [[data|es]|] eqn:Hl.
  - rewrite (add_include_file _ _ _ _ Hl).
    destruct (should_exclude (str (Path include)));
      [now rewrite extend_nil | reflexivity].
  - unfold add_include, is_file, is_dir, os_walk.
    rewrite Hl, resolve_str, Hl. apply walk_ok.
    + exact (lookup_wf _ _ _ Hwf Hl).
    + apply good_root_str, Path_parts.
    + now rewrite str_Path_idem.
  - rewrite add_include_missing, ?extend_nil; trivial;
      unfold is_file, is_dir; now rewrite Hl.
Qed.

Lemma add_includes_app (fs : node) (a b : list string) (w : world) :
  add_includes fs (a ++ b) w
  = bind (add_includes fs a w) (add_includes fs b).
Proof.
  revert w. induction a as [|x a IH]; intros w; simpl; [reflexivity|].
  destruct (add_include fs x w); simpl; [apply IH | reflexivity].
Qed.

Lemma add_includes_ok (fs : node) (roots : list string) (w : world) :
  wf fs = true ->
  add_includes fs roots w
  = Ok (extend w (flat_map (root_entries fs) roots)
                 (flat_map (root_dirs fs) roots)).
Proof.
  intros Hwf. revert w.
  induction roots as [|r roots IH]; intros w; simpl.
  - now rewrite extend_nil.
  - rewrite (add_include_ok _ _ _ Hwf). cbn [bind].
    now rewrite IH, extend_extend.
Qed.

(** *** The open of the archive *)

Lemma truncate_assoc (name k : string) (es : list (string * node)) :
  (k =? name) = false -> assoc k (truncate name es) = assoc k es.
Proof.
  intros Hk. induction es as [|[c n] es IH]; cbn [truncate assoc].
  - rewrite String.eqb_sym, Hk. reflexivity.
  - destruct (c =? name) eqn:E; cbn [assoc].
    + apply String.eqb_eq in E. subst c.
      rewrite String.eqb_sym, Hk. reflexivity.
    + destruct (c =? k); [reflexivity | exact IH].
Qed.

Lemma truncate_names (name k : string) (es : list (string * node)) :
  (k =? name) = false ->
  existsb (String.eqb k) (map fst (truncate name es))
  = existsb (String.eqb k) (map fst es).
Proof.
  intros Hk. induction es as [|[c n] es IH]; cbn [truncate map fst existsb].
  - now rewrite Hk.
  - destruct (c =? name) eqn:E; cbn [map fst existsb];
      [reflexivity | now rewrite IH].
Qed.

Lemma truncate_wf (name : string) (es : list (string * node)) :
  valid_name name = true -> wf (Dir es) = true ->
  wf (Dir (truncate name es)) = true.
Proof.
  intros Hname. rewrite !wf_Dir, !andb_true_iff.
  induction es as [|[c n] es IH]; cbn [truncate].
  - intros _. cbn. now rewrite Hname.
  - cbn [map fst forallb distinct wf_entries].
    rewrite !andb_true_iff, negb_true_iff.
    intros [[[Hc Hv] [Hn Hd]] [Hw Hes]].
    destruct (c =? name) eqn:E;
      cbn [map fst forallb distinct wf_entries];
      rewrite !andb_true_iff, negb_true_iff.
    + repeat split; assumption.
    + destruct IH as [[Hv' Hd'] Hes']; [repeat split; assumption|].
      rewrite (truncate_names _ _ _ E). repeat split; assumption.
Qed.

(** Where the archive can be opened, the open succeeds and leaves a
    well-formed directory in which every path that does not start with the
    name of the archive leads where it led before. *)
Lemma ZipFile_ok (fs : node) :
  can_open fs = true ->
  exists opened,
    ZipFile fs zip_filename = Ok opened
    /\ (wf fs = true -> wf opened = true)
    /\ forall c rest, (c =? zip_filename) = false ->
         lookup opened (c :: rest) = lookup fs (c :: rest).
Proof.
  intros Hopen. unfold can_open in Hopen.
  rewrite andb_true_iff, negb_true_iff in Hopen. destruct Hopen as [Hd Hz].
  destruct fs as [data|es]; [discriminate Hd|].
  exists (Dir (truncate zip_filename es)). split; [|split].
  - unfold ZipFile. unfold is_dir in Hz.
    change (Path zip_filename) with [zip_filename] in Hz. cbn [lookup] in Hz.
    destruct (assoc zip_filename es) as [[data|sub]|];
      [reflexivity | discriminate Hz | reflexivity].
  - now apply truncate_wf.
  - intros c rest Hc. cbn [lookup]. now rewrite (truncate_assoc _ _ _ Hc).
Qed.

(** No root of the script starts with the name of the archive. *)
Lemma includes_elsewhere (include : string) :
  In include includes ->
  exists c rest, Path include = c :: rest /\ (c =? zip_filename) = false.
Proof.
  intros H.
  repeat (destruct H as [<-|H];
          [eexists; eexists; split; [vm_compute; reflexivity | reflexivity]|]).
  destruct H.
Qed.

(** The open of the archive changes nothing at the roots of the script. *)
Lemma ZipFile_roots (fs opened : node) (include : string) :
  (forall c rest, (c =? zip_filename) = false ->
     lookup opened (c :: rest) = lookup fs (c :: rest)) ->
  In include includes ->
  lookup opened (Path include) = lookup fs (Path include).
Proof.
  intros Hsame Hin.
  destruct (includes_elsewhere _ Hin) as (c & rest & -> & Hc).
  now apply Hsame.
Qed.

Lemma flat_map_same {A B : Type} (f g : A -> list B) (l : list A) :
  (forall a, In a l -> f a = g a) -> flat_map f l = flat_map g l.
Proof.
  induction l as [|a l IH]; intros H; cbn [flat_map]; [reflexivity|].
  rewrite (H a (or_introl eq_refl)), IH; [reflexivity|].
  intros a' Ha'. apply H. now right.
Qed.

Lemma create_zip_ok (getsize : list entry -> N) (fs : node) :
  wf fs = true -> can_open fs = true ->
  create_zip getsize fs
  = Ok (print (summary (getsize (flat_map (root_entries fs) includes)))
          (extend empty_world (flat_map (root_entries fs) includes)
                              (flat_map (root_dirs fs) includes))).
Proof.
  intros Hwf Hopen.
  destruct (ZipFile_ok fs Hopen) as (opened & Hzip & Hwf' & Hsame).
  unfold create_zip. rewrite Hzip. cbn [bind].
  rewrite (add_includes_ok _ _ _ (Hwf' Hwf)). cbn [bind].
  pose proof (fun include => ZipFile_roots fs opened include Hsame) as Hl.
  assert (He : flat_map (root_entries opened) includes
               = flat_map (root_entries fs) includes).
  { apply flat_map_same. intros include Hin. unfold root_entries.
    now rewrite (Hl include Hin). }
  assert (Hd : flat_map (root_dirs opened) includes
               = flat_map (root_dirs fs) includes).
  { apply flat_map_same. intros include Hin. unfold root_dirs.
    now rewrite (Hl include Hin). }
  now rewrite He, Hd.
Qed.

Lemma includes_normal (include : string) :
  In include includes -> str (Path include) = include.
Proof.
  intros H. repeat (destruct H as [<-|H]; [reflexivity|]). destruct H.
Qed.

(** C4: a root entry that names an existing file has the exclusion
    predicate applied to its own path string, and is written, as one entry
    under that path, exactly when the predicate returns [false]; for the
    roots of the script that path string is the root as listed; the root
    list ["package.json"] with the file present gives exactly one entry,
    named "package.json". *)
Theorem C4_file_root_written_iff_not_excluded
  (fs : node) (include data : string) (w : world) :
  lookup fs (Path include) = Some (File data) ->
  let p := str (Path include) in
  is_file fs (Path include) = true
  /\ add_include fs include w
     = (if should_exclude p then Ok w
        else Ok (extend w [mkEntry p p (Regular data)] []))
  /\ (In include includes -> p = include)
  /\ (include = "package.json" ->
      add_includes fs [include] empty_world
      = Ok (mkWorld [mkEntry "package.json" "package.json" (Regular data)]
                    ["Adding file: package.json"] [])).
Proof.
  intros Hl p. repeat split.
  - unfold is_file. now rewrite Hl.
  - now apply add_include_file.
  - apply includes_normal.
  - intros ->. cbn [add_includes]. now rewrite (add_include_file _ _ _ _ Hl).
Qed.

Lemma C4_file_root_witness :
  add_includes sample ["package.json"] empty_world
  = Ok (mkWorld [mkEntry "package.json" "package.json" (Regular "{}")]
                ["Adding file: package.json"] []).
Proof.
  apply (C4_file_root_written_iff_not_excluded
           sample "package.json" "{}" empty_world); reflexivity.
Defined.

(** C5: a root entry that names neither an existing file nor an existing
    directory raises nothing and leaves the archive, the console and the
    walk untouched; the run over a root list with that entry ends exactly as
    the run over the list without it. *)
Theorem C5_missing_root_is_skipped
  (fs : node) (include : string) (w : world) :
  is_file fs (Path include) = false -> is_dir fs (Path include) = false ->
  add_include fs include w = Ok w
  /\ forall before after,
       add_includes fs (before ++ include :: after) w
       = add_includes fs (before ++ after) w.
Proof.
  intros Hf Hd. split; [now apply add_include_missing|].
  intros before after. rewrite !add_includes_app. apply bind_ext.
  intros w'. cbn [add_includes].
  now rewrite (add_include_missing _ _ _ Hf Hd).
Qed.

Lemma C5_missing_root_witness :
  add_include sample "missing_dir" empty_world = Ok empty_world
  /\ forall before after,
       add_includes sample (before ++ "missing_dir" :: after) empty_world
       = add_includes sample (before ++ after) empty_world.
Proof.
  apply (C5_missing_root_is_skipped sample "missing_dir" empty_world);
    reflexivity.
Defined.


(** ** What a walk writes and lists *)

Lemma level_entries_In (root : string) (es : list (string * node))
  (e : entry) :
  In e (level_entries root es) <->
  exists name data,
    In (name, File data) es /\ should_exclude (join root name) = false
    /\ e = file_entry root name data.
Proof.
  induction es as [|[name [data|sub]] es IH]; cbn [level_entries].
  - split; [intros [] | intros (? & ? & [] & _)].
  - destruct (should_exclude (join root name)) eqn:E; cbn [negb In];
      rewrite IH; split.
    + intros (name' & data' & Hin & Hex & He). exists name', data'. auto.
    + intros (name' & data' & [Heq|Hin] & Hex & He).
      * inversion Heq; subst. congruence.
      * exists name', data'. auto.
    + intros [<-|(name' & data' & Hin & Hex & He)].
      * exists name, data. auto.
      * exists name', data'. auto.
    + intros (name' & data' & [Heq|Hin] & Hex & He).
      * inversion Heq; subst. now left.
      * right. exists name', data'. auto.
  - rewrite IH. split.
    + intros (name' & data' & Hin & Hex & He). exists name', data'.
      cbn [In]. auto.
    + intros (name' & data' & [Heq|Hin] & Hex & He); [discriminate|].
      exists name', data'. auto.
Qed.

Lemma below_entries_In (root : string) (es : list (string * node))
  (e : entry) :
  In e (below_entries root es) <->
  exists d sub,
    In (d, Dir sub) es /\ should_exclude (join root d) = false
    /\ In e (tree_entries (join root d) (Dir sub)).
Proof.
  induction es as [|[name [data|sub]] es IH]; cbn [below_entries].
  - split; [intros [] | intros (? & ? & [] & _)].
  - rewrite IH. split.
    + intros (d & sub & Hin & Hex & He). exists d, sub. cbn [In]. auto.
    + intros (d & sub & [Heq|Hin] & Hex & He); [discriminate|].
      exists d, sub. auto.
  - destruct (should_exclude (join root name)) eqn:E; cbn [negb In];
      rewrite ?in_app_iff, IH; split.
    + intros (d & sub' & Hin & Hex & He). exists d, sub'. auto.
    + intros (d & sub' & [Heq|Hin] & Hex & He).
      * inversion Heq; subst. congruence.
      * exists d, sub'. auto.
    + intros [He|(d & sub' & Hin & Hex & He)].
      * exists name, sub. auto.
      * exists d, sub'. auto.
    + intros (d & sub' & [Heq|Hin] & Hex & He).
      * inversion Heq; subst. now left.
      * right. exists d, sub'. auto.
Qed.


(** Every entry of a walk is a file of the tree, stored under the path the
    walk built for it; that path and the paths of the sub-directories above
    it passed the exclusion test. *)
Lemma tree_entries_file_at (n : node) :
  forall root e,
    In e (tree_entries root n) ->
    exists above data,
      file_at root n above (arcname e) data
      /\ e = mkEntry (arcname e) (arcname e) (Regular data)
      /\ should_exclude (arcname e) = false
      /\ Forall (fun d => should_exclude d = false) above.
Proof.
  induction n as [data|es IH] using node_ind'; intros root e; [intros []|].
  rewrite tree_entries_Dir, in_app_iff, level_entries_In, below_entries_In.
  intros [(name & data & Hin & Hex & ->)|(d & sub & Hin & Hex & He)].
  - exists [], data. repeat split; auto. now constructor.
  - rewrite Forall_forall in IH.
    destruct (IH _ Hin _ _ He) as (above & data & Hat & Heq & Hp & Hab).
    exists (join root d :: above), data. repeat split; auto.
    econstructor; eassumption.
Qed.

Lemma file_at_tree_entries (root : string) (n : node) (above : list string)
  (p data : string) :
  file_at root n above p data ->
  Forall (fun d => should_exclude d = false) above ->
  should_exclude p = false ->
  In (mkEntry p p (Regular data)) (tree_entries root n).
Proof.
  induction 1 as [root es name data Hin|root es d sub above p data Hin Hat IH];
    intros Hab Hp; rewrite tree_entries_Dir, in_app_iff.
  - left. apply level_entries_In. exists name, data. auto.
  - right. apply below_entries_In. inversion Hab; subst.
    destruct sub as [?|sub]; [inversion Hat|].
    exists d, sub. auto.
Qed.


(** ** Files of the tree and their paths *)

Lemma append_assoc (a b c : string) : (a ++ b) ++ c = a ++ (b ++ c).
Proof. induction a as [|x a IH]; simpl; [reflexivity | now rewrite IH]. Qed.

Lemma excluded_prefix (d rest : string) :
  should_exclude d = true -> should_exclude (d ++ rest) = true.
Proof. intros H. exact (should_exclude_inside "" d rest H). Qed.

(** On a well-formed tree the path of a file starts with the path of every
    directory it lies under. *)
Lemma file_at_prefix (root : string) (n : node) (above : list string)
  (p data : string) :
  file_at root n above p data -> wf n = true -> good_root root ->
  Forall (fun d => exists rest, p = d ++ rest) (root :: above).
Proof.
  induction 1 as [root es name data Hin|root es d sub above p data Hin Hat IH];
    intros Hwf Hg; rewrite wf_Dir, !andb_true_iff in Hwf;
    destruct Hwf as [[Hv Hd] Hes].
  - constructor; [|constructor].
    pose proof (valid_name_part _ (valid_names_In _ _ _ Hv Hin)) as Hp.
    rewrite (join_good _ _ Hg Hp). now exists ("/" ++ name).
  - pose proof (valid_name_part _ (valid_names_In _ _ _ Hv Hin)) as Hp.
    assert (Hg' : good_root (join root d))
      by (rewrite (join_good _ _ Hg Hp); now apply good_root_snoc).
    specialize (IH (wf_entries_In _ _ _ Hes Hin) Hg').
    constructor; [|exact IH].
    inversion IH as [|? ? [rest Hrest] _]; subst.
    rewrite (join_good _ _ Hg Hp), append_assoc. eauto.
Qed.

(** The path the walk builds for a file is a path at which the operating
    system finds that file. *)
Lemma file_at_lookup (fs : node) (root : string) (n : node)
  (above : list string) (p data : string) :
  file_at root n above p data -> wf n = true -> good_root root ->
  lookup fs (Path root) = Some n ->
  lookup fs (Path p) = Some (File data).
Proof.
  induction 1 as [root es name data Hin|root es d sub above p data Hin Hat IH];
    intros Hwf Hg Hl; rewrite wf_Dir, !andb_true_iff in Hwf;
    destruct Hwf as [[Hv Hd] Hes]; apply distinct_NoDup in Hd.
  - exact (lookup_child fs _ _ _ _ Hg Hl Hd (valid_names_In _ _ _ Hv Hin) Hin).
  - pose proof (valid_names_In _ _ _ Hv Hin) as Hvd.
    pose proof (valid_name_part _ Hvd) as Hp.
    apply IH.
    + exact (wf_entries_In _ _ _ Hes Hin).
    + rewrite (join_good _ _ Hg Hp). now apply good_root_snoc.
    + exact (lookup_child fs _ _ _ _ Hg Hl Hd Hvd Hin).
Qed.

(** What the entries of the root list are: files reachable from it, stored
    under the path used to find them, that path not excluded. *)
Lemma root_entries_reachable (fs : node) (roots : list string) (e : entry) :
  In e (flat_map (root_entries fs) roots) ->
  exists under data,
    reachable fs roots under (arcname e) data
    /\ e = mkEntry (arcname e) (arcname e) (Regular data)
    /\ should_exclude (arcname e) = false.
Proof.
  rewrite in_flat_map. intros (include & Hin & He). unfold root_entries in He.
  destruct (lookup fs (Path include)) as [[data|es]|] eqn:Hl; [| |destruct He].
  - destruct (should_exclude (str (Path include))) eqn:Hex; [destruct He|].
    destruct He as [<-|[]]. exists [], data. cbn [arcname].
    repeat split; auto. now constructor.
  - apply tree_entries_file_at in He.
    destruct He as (above & data & Hat & Heq & Hex & _).
    exists (str (Path include) :: above), data. repeat split; auto.
    econstructor; eassumption.
Qed.

Lemma reachable_root_entries (fs : node) (roots : list string)
  (under : list string) (p data : string) :
  wf fs = true ->
  reachable fs roots under p data -> should_exclude p = false ->
  In (mkEntry p p (Regular data)) (flat_map (root_entries fs) roots).
Proof.
  intros Hwf Hr Hex. rewrite in_flat_map.
  destruct Hr as [include data Hin Hl|include es above p data Hin Hl Hat];
    exists include; split; auto; unfold root_entries; rewrite Hl.
  - rewrite Hex. now left.
  - apply (file_at_tree_entries _ _ _ _ _ Hat); [|assumption].
    pose proof (file_at_prefix _ _ _ _ _ Hat (lookup_wf _ _ _ Hwf Hl)
                  (good_root_str _ (Path_parts include))) as Hpre.
    inversion Hpre as [|? ? _ Hab]; subst.
    rewrite Forall_forall in *. intros d Hd.
    destruct (Hab d Hd) as [rest ->].
    destruct (should_exclude d) eqn:E; [|reflexivity].
    now rewrite (excluded_prefix _ rest E) in Hex.
Qed.

(** A reachable file that lies under a directory with an excluded path has
    an excluded path itself. *)
Lemma reachable_under_excluded (fs : node) (roots under : list string)
  (p data : string) :
  wf fs = true -> reachable fs roots under p data ->
  (exists d, In d under /\ should_exclude d = true) ->
  should_exclude p = true.
Proof.
  intros Hwf Hr (d & Hd & Hex).
  destruct Hr as [include data Hin Hl|include es above p data Hin Hl Hat];
    [destruct Hd|].
  pose proof (file_at_prefix _ _ _ _ _ Hat (lookup_wf _ _ _ Hwf Hl)
                (good_root_str _ (Path_parts include))) as Hpre.
  rewrite Forall_forall in Hpre. destruct (Hpre d Hd) as [rest ->].
  now apply excluded_prefix.
Qed.

(** ** The finished run *)

Lemma reachable_lookup (fs : node) (roots under : list string)
  (p data : string) :
  wf fs = true -> reachable fs roots under p data ->
  resolve fs p = Some (File data).
Proof.
  intros Hwf Hr. unfold resolve.
  destruct Hr as [include data Hin Hl|include es above p data Hin Hl Hat].
  - now rewrite str_Path_idem.
  - apply (file_at_lookup fs _ _ _ _ _ Hat).
    + exact (lookup_wf _ _ _ Hwf Hl).
    + apply good_root_str, Path_parts.
    + now rewrite str_Path_idem.
Qed.

(** On a well-formed tree in which the archive can be opened the run
    completes; the archive holds the entries
    of the roots in root order, the console one line per entry and then the
    summary, and the walk listed the directories of the roots. *)
Lemma create_zip_run (getsize : list entry -> N) (fs : node) :
  wf fs = true -> can_open fs = true ->
  exists w,
    create_zip getsize fs = Ok w
    /\ zip w = flat_map (root_entries fs) includes
    /\ stdout w = (map adding_line (zip w) ++ [summary (getsize (zip w))])%list
    /\ scanned w = flat_map (root_dirs fs) includes.
Proof.
  intros Hwf Hopen. rewrite (create_zip_ok _ _ Hwf Hopen). eexists.
  split; [reflexivity|].
  cbn [zip stdout scanned print extend empty_world app]. auto.
Qed.

(** C9: on a well-formed tree in which the archive can be opened, the run
    completes and every entry name written to the archive has
    [should_exclude] [false]; the name of the output archive is itself excluded, so no path
    in which that name occurs, such as an archive left by an earlier run
    anywhere in the tree, is the name of an entry. *)
Theorem C9_entry_names_not_excluded (getsize : list entry -> N) (fs : node) :
  wf fs = true -> can_open fs = true ->
  exists w,
    create_zip getsize fs = Ok w
    /\ Forall (fun e => should_exclude (arcname e) = false) (zip w)
    /\ should_exclude zip_filename = true
    /\ forall p, Str.occurs_in zip_filename p ->
         should_exclude p = true /\ ~ In p (map arcname (zip w)).
Proof.
  intros Hwf Hopen.
  destruct (create_zip_run getsize fs Hwf Hopen) as (w & Hrun & Hz & _).
  assert (Hall : Forall (fun e => should_exclude (arcname e) = false) (zip w)).
  { rewrite Hz. apply Forall_forall. intros e He.
    apply root_entries_reachable in He. now destruct He as (? & ? & _ & _ & H). }
  exists w. repeat split; auto.
  - destruct H as (pre & post & ->). now apply should_exclude_inside.
  - intros Hin. apply in_map_iff in Hin. destruct Hin as (e & <- & He).
    rewrite Forall_forall in Hall. specialize (Hall e He).
    destruct H as (pre & post & Hp). rewrite Hp in Hall.
    now rewrite (should_exclude_inside pre zip_filename post) in Hall.
Qed.

Lemma C9_entry_names_witness :
  exists w,
    create_zip sample_size sample = Ok w
    /\ Forall (fun e => should_exclude (arcname e) = false) (zip w).
Proof.
  destruct (C9_entry_names_not_excluded sample_size sample eq_refl eq_refl)
    as (w & Hrun & Hall & _).
  exists w. split; assumption.
Defined.

Lemma tree_entries_none (root : string) (n : node) :
  (forall above p data,
     file_at root n above p data -> should_exclude p = true) ->
  tree_entries root n = [].
Proof.
  intros Hnone. destruct (tree_entries root n) as [|e l] eqn:E; [reflexivity|].
  assert (He : In e (tree_entries root n)) by (rewrite E; now left).
  apply tree_entries_file_at in He.
  destruct He as (above & data & Hat & _ & Hex & _).
  rewrite (Hnone _ _ _ Hat) in Hex. discriminate.
Qed.

(** C10: only regular files produce archive entries: on a well-formed tree
    in which the archive can be opened, the run completes and every entry of
    the finished archive holds the bytes of a regular file found at its path;
    and a directory with no included file below it, when walked, leaves the
    archive and the console as they were, so it has no entry of its own. *)
Theorem C10_only_regular_files_have_entries
  (getsize : list entry -> N) (fs : node) :
  wf fs = true -> can_open fs = true ->
  (exists w,
     create_zip getsize fs = Ok w
     /\ forall e, In e (zip w) ->
          exists data,
            content e = Regular data
            /\ resolve fs (filename e) = Some (File data))
  /\ (forall root n w0,
        good_root root -> lookup fs (Path root) = Some n ->
        (forall above p data,
           file_at root n above p data -> should_exclude p = true) ->
        exists w1,
          walk fs root n w0 = Ok w1
          /\ zip w1 = zip w0 /\ stdout w1 = stdout w0).
Proof.
  intros Hwf Hopen. split.
  - destruct (create_zip_run getsize fs Hwf Hopen) as (w & Hrun & Hz & _).
    exists w. split; [assumption|]. intros e He. rewrite Hz in He.
    apply root_entries_reachable in He.
    destruct He as (under & data & Hr & -> & _). exists data.
    split; [reflexivity|]. cbn [filename].
    exact (reachable_lookup _ _ _ _ _ Hwf Hr).
  - intros root n w0 Hg Hl Hnone.
    rewrite (walk_ok fs n root w0 (lookup_wf _ _ _ Hwf Hl) Hg Hl).
    rewrite (tree_entries_none _ _ Hnone). eexists. split; [reflexivity|].
    cbn [zip stdout extend map]. now rewrite !app_nil_r.
Qed.

Lemma C10_only_regular_files_witness :
  exists w1,
    walk sample "server/empty" (Dir []) empty_world = Ok w1
    /\ zip w1 = [] /\ stdout w1 = [].
Proof.
  destruct (C10_only_regular_files_have_entries sample_size sample eq_refl eq_refl)
    as [_ H].
  apply (H "server/empty" (Dir []) empty_world).
  - split; [discriminate | reflexivity].
  - reflexivity.
  - intros above p data Hat. inversion Hat; subst; contradiction.
Defined.





(** ** No path is written twice *)

Lemma file_at_Path (root : string) (n : node) (above : list string)
  (p data : string) :
  file_at root n above p data -> wf n = true -> good_root root ->
  exists rel, rel <> [] /\ Path p = (Path root ++ rel)%list.
Proof.
  induction 1 as [root es name data Hin|root es d sub above p data Hin Hat IH];
    intros Hwf Hg; rewrite wf_Dir, !andb_true_iff in Hwf;
    destruct Hwf as [[Hv Hd] Hes];
    pose proof (valid_name_part _ (valid_names_In _ _ _ Hv Hin)) as Hp.
  - exists [name]. split; [discriminate|].
    now rewrite (join_good _ _ Hg Hp), (Path_snoc _ _ Hp).
  - destruct IH as (rel & Hrel & HP).
    + exact (wf_entries_In _ _ _ Hes Hin).
    + rewrite (join_good _ _ Hg Hp). now apply good_root_snoc.
    + exists (d :: rel). split; [discriminate|].
      rewrite HP, (join_good _ _ Hg Hp), (Path_snoc _ _ Hp), <- app_assoc.
      reflexivity.
Qed.

Lemma level_entry_Path (root : string) (es : list (string * node))
  (e : entry) :
  good_root root -> forallb valid_name (map fst es) = true ->
  In e (level_entries root es) ->
  exists name,
    In name (map fst es) /\ Path (arcname e) = (Path root ++ [name])%list.
Proof.
  intros Hg Hv He. apply level_entries_In in He.
  destruct He as (name & data & Hin & _ & ->). exists name. split.
  - change name with (fst (name, File data)). now apply in_map.
  - pose proof (valid_name_part _ (valid_names_In _ _ _ Hv Hin)) as Hp.
    cbn [arcname file_entry].
    now rewrite (join_good _ _ Hg Hp), (Path_snoc _ _ Hp).
Qed.

Lemma below_entry_Path (root : string) (es : list (string * node))
  (e : entry) :
  good_root root -> forallb valid_name (map fst es) = true ->
  wf_entries es = true ->
  In e (below_entries root es) ->
  exists d rel,
    In d (map fst es) /\ rel <> []
    /\ Path (arcname e) = (Path root ++ d :: rel)%list.
Proof.
  intros Hg Hv Hwf He. apply below_entries_In in He.
  destruct He as (d & sub & Hin & _ & He).
  pose proof (valid_name_part _ (valid_names_In _ _ _ Hv Hin)) as Hp.
  apply tree_entries_file_at in He.
  destruct He as (above & data & Hat & _).
  apply file_at_Path in Hat.
  - destruct Hat as (rel & Hrel & HP). exists d, rel. repeat split; auto.
    + change d with (fst (d, Dir sub)). now apply in_map.
    + rewrite HP, (join_good _ _ Hg Hp), (Path_snoc _ _ Hp), <- app_assoc.
      reflexivity.
  - exact (wf_entries_In _ _ _ Hwf Hin).
  - rewrite (join_good _ _ Hg Hp). now apply good_root_snoc.
Qed.

Lemma level_entries_NoDup (root : string) (es : list (string * node)) :
  good_root root -> forallb valid_name (map fst es) = true ->
  NoDup (map fst es) ->
  NoDup (map arcname (level_entries root es)).
Proof.
  intros Hg. induction es as [|[name [data|sub]] es IH];
    cbn [level_entries map fst forallb]; intros Hv Hnd;
    [constructor | |];
    apply andb_true_iff in Hv; destruct Hv as [Hn Hv];
    inversion Hnd as [|? ? Hnotin Hnd']; subst; [|now apply IH].
  destruct (negb (should_exclude (join root name))); [|now apply IH].
  cbn [map]. constructor; [|now apply IH].
  intros Hin. apply in_map_iff in Hin. destruct Hin as (e & Harc & He).
  destruct (level_entry_Path _ _ _ Hg Hv He) as (name' & Hin' & HP).
  rewrite Harc in HP. cbn [arcname file_entry] in HP.
  pose proof (valid_name_part _ Hn) as Hp.
  rewrite (join_good _ _ Hg Hp), (Path_snoc _ _ Hp) in HP.
  apply app_inv_head in HP. now inversion HP; subst.
Qed.

Lemma below_entries_NoDup (root : string) (es : list (string * node)) :
  good_root root -> forallb valid_name (map fst es) = true ->
  NoDup (map fst es) -> wf_entries es = true ->
  Forall (fun c => forall r, wf (snd c) = true -> good_root r ->
                     NoDup (map arcname (tree_entries r (snd c)))) es ->
  NoDup (map arcname (below_entries root es)).
Proof.
  intros Hg. induction es as [|[d [data|sub]] es IH];
    cbn [below_entries map fst forallb wf_entries]; intros Hv Hnd Hwf HP;
    [constructor | |];
    apply andb_true_iff in Hv; destruct Hv as [Hn Hv];
    apply andb_true_iff in Hwf; destruct Hwf as [Hsub Hwf];
    inversion Hnd as [|? ? Hnotin Hnd']; subst;
    inversion HP as [|? ? Hhead Htail]; subst; [now apply IH|].
  destruct (negb (should_exclude (join root d))); [|now apply IH].
  pose proof (valid_name_part _ Hn) as Hp.
  assert (Hg' : good_root (join root d))
    by (rewrite (join_good _ _ Hg Hp); now apply good_root_snoc).
  rewrite map_app. apply NoDup_app.
  - exact (Hhead _ Hsub Hg').
  - now apply IH.
  - intros p Hin1 Hin2.
    apply in_map_iff in Hin1. destruct Hin1 as (e1 & <- & He1).
    apply in_map_iff in Hin2. destruct Hin2 as (e2 & Harc & He2).
    destruct (below_entry_Path _ _ _ Hg Hv Hwf He2) as (d' & rel' & Hd' & _ & HP2).
    apply tree_entries_file_at in He1.
    destruct He1 as (above & data & Hat & _).
    destruct (file_at_Path _ _ _ _ _ Hat Hsub Hg') as (rel & _ & HP1).
    rewrite Harc, HP1, (join_good _ _ Hg Hp), (Path_snoc _ _ Hp),
      <- app_assoc in HP2.
    apply app_inv_head in HP2. inversion HP2; subst. contradiction.
Qed.

Lemma tree_entries_NoDup (n : node) :
  forall root, wf n = true -> good_root root ->
    NoDup (map arcname (tree_entries root n)).
Proof.
  induction n as [data|es IH] using node_ind'; intros root Hwf Hg;
    [constructor|].
  rewrite wf_Dir, !andb_true_iff in Hwf. destruct Hwf as [[Hv Hd] Hes].
  apply distinct_NoDup in Hd.
  rewrite tree_entries_Dir, map_app. apply NoDup_app.
  - now apply level_entries_NoDup.
  - now apply below_entries_NoDup.
  - intros p Hin1 Hin2.
    apply in_map_iff in Hin1. destruct Hin1 as (e1 & <- & He1).
    apply in_map_iff in Hin2. destruct Hin2 as (e2 & Harc & He2).
    destruct (level_entry_Path _ _ _ Hg Hv He1) as (name & _ & HP1).
    destruct (below_entry_Path _ _ _ Hg Hv Hes He2) as (d & rel & _ & Hrel & HP2).
    rewrite Harc, HP1 in HP2. apply app_inv_head in HP2.
    inversion HP2; subst. now destruct Hrel.
Qed.

Lemma root_entries_NoDup (fs : node) (include : string) :
  wf fs = true -> NoDup (map arcname (root_entries fs include)).
Proof.
  intros Hwf. unfold root_entries.
  destruct (lookup fs (Path include)) as [[data|es]|] eqn:Hl.
  - destruct (negb (should_exclude (str (Path include)))); cbn [map].
    + constructor; [intros [] | constructor].
    + constructor.
  - apply tree_entries_NoDup.
    + exact (lookup_wf _ _ _ Hwf Hl).
    + apply good_root_str, Path_parts.
  - constructor.
Qed.

(** Every path written for one of the roots of the script starts with the
    first two characters of that root, and these differ from root to
    root. *)
Lemma root_entries_head2 (fs : node) (include : string) (e : entry) :
  wf fs = true -> In include includes -> In e (root_entries fs include) ->
  head2 (arcname e) = head2 include.
Proof.
  intros Hwf Hinc He. unfold root_entries in He.
  rewrite (includes_normal _ Hinc) in He.
  destruct (lookup fs (Path include)) as [[data|es]|] eqn:Hl; [| |destruct He].
  - destruct (negb (should_exclude include)); [|destruct He].
    destruct He as [<-|[]]. reflexivity.
  - apply tree_entries_file_at in He.
    destruct He as (above & data & Hat & _).
    assert (Hg : good_root include).
    { rewrite <- (includes_normal _ Hinc). apply good_root_str, Path_parts. }
    pose proof (file_at_prefix _ _ _ _ _ Hat (lookup_wf _ _ _ Hwf Hl) Hg)
      as Hpre.
    inversion Hpre as [|? ? [rest ->] _]; subst.
    clear - Hinc.
    repeat (destruct Hinc as [<-|Hinc]; [reflexivity|]). destruct Hinc.
Qed.

Lemma flat_map_NoDup {A B K : Type} (f : A -> list B) (key : B -> K)
  (k : A -> K) (l : list A) :
  NoDup (map k l) ->
  (forall a, In a l -> NoDup (f a)) ->
  (forall a b, In a l -> In b (f a) -> key b = k a) ->
  NoDup (flat_map f l).
Proof.
  induction l as [|a l IH]; cbn [map flat_map]; intros Hnd Hf Hkey;
    [constructor|].
  inversion Hnd as [|? ? Hnotin Hnd']; subst. apply NoDup_app.
  - apply Hf. now left.
  - apply IH; auto.
    + intros a' Ha'. apply Hf. now right.
    + intros a' b Ha'. apply Hkey. now right.
  - intros b Hb Hb'. apply in_flat_map in Hb'.
    destruct Hb' as (a' & Ha' & Hb'). apply Hnotin.
    rewrite <- (Hkey a b) by (auto; now left).
    rewrite (Hkey a' b) by (auto; now right). now apply in_map.
Qed.

Lemma map_flat_map {A B C : Type} (f : A -> list B) (g : B -> C)
  (l : list A) :
  map g (flat_map f l) = flat_map (fun a => map g (f a)) l.
Proof.
  induction l as [|a l IH]; cbn [flat_map]; [reflexivity|].
  now rewrite map_app, IH.
Qed.

Lemma includes_entries_NoDup (fs : node) :
  wf fs = true ->
  NoDup (map arcname (flat_map (root_entries fs) includes)).
Proof.
  intros Hwf. rewrite map_flat_map.
  apply (flat_map_NoDup _ head2 head2).
  - apply distinct_NoDup. reflexivity.
  - intros include _. now apply root_entries_NoDup.
  - intros include p Hinc Hp. apply in_map_iff in Hp.
    destruct Hp as (e & <- & He).
    exact (root_entries_head2 fs include e Hwf Hinc He).
Qed.

(** C3: on a well-formed tree in which the archive can be opened, the run
    completes, and every non-excluded file reachable from the root list is
    written to the archive exactly once, and the name it is stored under is
    the path string used to locate it. *)
Theorem C3_each_included_file_once_under_its_path
  (getsize : list entry -> N) (fs : node) :
  wf fs = true -> can_open fs = true ->
  exists w,
    create_zip getsize fs = Ok w
    /\ NoDup (map arcname (zip w))
    /\ forall under p data,
         reachable fs includes under p data -> should_exclude p = false ->
         In (mkEntry p p (Regular data)) (zip w)
         /\ count_occ string_dec (map arcname (zip w)) p = 1
         /\ forall e, In e (zip w) -> arcname e = p ->
              filename e = p /\ content e = Regular data.
Proof.
  intros Hwf Hopen.
  destruct (create_zip_run getsize fs Hwf Hopen) as (w & Hrun & Hz & _).
  pose proof (includes_entries_NoDup fs Hwf) as Hnd. rewrite <- Hz in Hnd.
  exists w. split; [assumption|]. split; [assumption|].
  intros under p data Hr Hex.
  assert (Hentry : In (mkEntry p p (Regular data)) (zip w))
    by (rewrite Hz; eapply reachable_root_entries; eassumption).
  split; [assumption|]. split.
  - assert (Hin : In p (map arcname (zip w)))
      by (apply in_map_iff; exists (mkEntry p p (Regular data)); auto).
    apply (count_occ_In string_dec) in Hin.
    pose proof (proj1 (NoDup_count_occ string_dec _) Hnd p). lia.
  - intros e He Harc. rewrite Hz in He.
    apply root_entries_reachable in He.
    destruct He as (under' & data' & Hr' & Heq & _).
    rewrite Harc in Heq, Hr'. rewrite Heq. cbn [filename content].
    split; [reflexivity|]. f_equal.
    pose proof (reachable_lookup _ _ _ _ _ Hwf Hr) as L1.
    pose proof (reachable_lookup _ _ _ _ _ Hwf Hr') as L2.
    congruence.
Qed.

Lemma C3_each_included_file_once_witness :
  exists w,
    create_zip sample_size sample = Ok w
    /\ count_occ string_dec (map arcname (zip w)) "package.json" = 1
    /\ count_occ string_dec (map arcname (zip w)) "server/lib/util.ts" = 1.
Proof.
  destruct (C3_each_included_file_once_under_its_path sample_size sample
              eq_refl eq_refl) as (w & Hrun & _ & Hfiles).
  exists w. split; [assumption|]. split.
  - refine (proj1 (proj2 (Hfiles [] "package.json" "{}" _ _))).
    + apply (reach_file sample includes "package.json" "{}");
        [do 3 right; now left | reflexivity].
    + reflexivity.
  - refine (proj1 (proj2 (Hfiles ["server"; "server/lib"]
                            "server/lib/util.ts" "util" _ _))).
    + eapply (reach_below sample includes "server");
        [right; now left | reflexivity |].
      eapply file_below with (d := "lib");
        [cbn; do 4 right; left; reflexivity|].
      apply (file_here "server/lib" _ "util.ts" "util"). now left.
    + reflexivity.
Defined.

(** ** The order of a directory listing *)

Lemma same_entries_names (es1 es2 : list (string * node)) :
  same_entries es1 es2 -> Permutation (map fst es1) (map fst es2).
Proof.
  revert es1 es2.
  apply (same_entries_mut (fun _ _ => True)
           (fun es1 es2 => Permutation (map fst es1) (map fst es2)));
    cbn [map fst].
  - exact (fun _ => I).
  - exact (fun _ _ _ _ => I).
  - constructor.
  - intros. now constructor.
  - intros. apply perm_swap.
  - intros. eapply Permutation_trans; eassumption.
Qed.

Lemma same_tree_refl (n : node) : same_tree n n.
Proof.
  induction n as [data|es IH] using node_ind'; constructor.
  induction IH as [|[k c] es Hc _ IHes]; constructor; assumption.
Qed.

Lemma same_tree_trans (a b c : node) :
  same_tree a b -> same_tree b c -> same_tree a c.
Proof.
  intros Hab Hbc. destruct Hab; inversion Hbc; subst; constructor.
  eapply same_trans; eassumption.
Qed.

Lemma same_found_refl (a : option node) : same_found a a.
Proof. destruct a; cbn; [apply same_tree_refl | exact I]. Qed.

Lemma same_found_trans (a b c : option node) :
  same_found a b -> same_found b c -> same_found a c.
Proof.
  destruct a, b, c; cbn; try tauto. apply same_tree_trans.
Qed.

Lemma same_entries_assoc (es1 es2 : list (string * node)) :
  same_entries es1 es2 -> NoDup (map fst es1) ->
  forall k, same_found (assoc k es1) (assoc k es2).
Proof.
  revert es1 es2.
  apply (same_entries_mut (fun _ _ => True)
           (fun es1 es2 => NoDup (map fst es1) ->
              forall k, same_found (assoc k es1) (assoc k es2))).
  - exact (fun _ => I).
  - exact (fun _ _ _ _ => I).
  - intros _ k. exact I.
  - intros name n1 n2 es1 es2 Hn _ _ IH Hnd k. cbn [assoc].
    inversion Hnd; subst.
    destruct (name =? k); [exact Hn | now apply IH].
  - intros [ka na] [kb nb] es Hnd k. cbn [assoc].
    cbn [map fst] in Hnd. inversion Hnd as [|? ? Hnotin _]; subst.
    destruct (String.eqb_spec ka k) as [->|Ha],
             (String.eqb_spec kb k) as [->|Hb];
      try apply same_found_refl.
    exfalso. apply Hnotin. now left.
  - intros es1 es2 es3 H12 IH12 _ IH23 Hnd k.
    apply (same_found_trans _ (assoc k es2)); [now apply IH12|].
    apply IH23.
    exact (Permutation_NoDup (same_entries_names _ _ H12) Hnd).
Qed.

Lemma same_tree_wf (n1 n2 : node) :
  same_tree n1 n2 -> wf n1 = true -> wf n2 = true.
Proof.
  revert n1 n2.
  apply (same_tree_mut (fun n1 n2 => wf n1 = true -> wf n2 = true)
           (fun es1 es2 => wf_entries es1 = true -> wf_entries es2 = true)).
  - auto.
  - intros es1 es2 Hs IH. rewrite !wf_Dir, !andb_true_iff.
    intros [[Hv Hd] Hes]. pose proof (same_entries_names _ _ Hs) as Hperm.
    repeat split; auto.
    + rewrite forallb_forall in *. intros x Hx. apply Hv.
      exact (Permutation_in _ (Permutation_sym Hperm) Hx).
    + apply distinct_NoDup. apply distinct_NoDup in Hd.
      exact (Permutation_NoDup Hperm Hd).
  - auto.
  - intros name n1 n2 es1 es2 _ IHn _ IHes. cbn [wf_entries].
    rewrite !andb_true_iff. intros [? ?]; auto.
  - intros [ka na] [kb nb] es. cbn [wf_entries].
    rewrite !andb_true_iff. tauto.
  - auto.
Qed.

Lemma same_tree_lookup (p : list string) :
  forall fs1 fs2,
    same_tree fs1 fs2 -> wf fs1 = true ->
    same_found (lookup fs1 p) (lookup fs2 p).
Proof.
  induction p as [|c p IH]; intros fs1 fs2 Hs Hwf; [exact Hs|].
  destruct Hs as [data|es1 es2 Hes]; [exact I|]. cbn [lookup].
  rewrite wf_Dir, !andb_true_iff in Hwf. destruct Hwf as [[Hv Hd] Hw].
  apply distinct_NoDup in Hd.
  pose proof (same_entries_assoc _ _ Hes Hd c) as Hc.
  destruct (assoc c es1) as [n1|] eqn:E1, (assoc c es2) as [n2|];
    cbn in Hc; try tauto.
  apply IH; [assumption|].
  exact (wf_entries_In _ _ _ Hw (assoc_Some_In _ _ _ E1)).
Qed.

Lemma same_tree_entries (n1 n2 : node) :
  same_tree n1 n2 ->
  forall root, Permutation (tree_entries root n1) (tree_entries root n2).
Proof.
  revert n1 n2.
  apply (same_tree_mut
           (fun n1 n2 => forall root,
              Permutation (tree_entries root n1) (tree_entries root n2))
           (fun es1 es2 => forall root,
              Permutation (level_entries root es1) (level_entries root es2)
              /\ Permutation (below_entries root es1)
                             (below_entries root es2))).
  - intros data root. apply Permutation_refl.
  - intros es1 es2 _ IH root. rewrite !tree_entries_Dir.
    destruct (IH root). now apply Permutation_app.
  - intros root. split; constructor.
  - intros name n1 n2 es1 es2 Hn IHn _ IHes root.
    destruct (IHes root) as [Hl Hb].
    destruct Hn as [data|sub1 sub2 Hsub]; cbn [level_entries below_entries];
      destruct (negb (should_exclude (join root name))); split; auto.
    apply Permutation_app; auto.
  - intros [ka [da|sa]] [kb [db|sb]] es root;
      cbn [level_entries below_entries];
      destruct (negb (should_exclude (join root ka))),
               (negb (should_exclude (join root kb)));
      split; try apply Permutation_refl; try apply perm_swap.
    rewrite !app_assoc. apply Permutation_app_tail, Permutation_app_comm.
  - intros es1 es2 es3 _ IH12 _ IH23 root.
    destruct (IH12 root), (IH23 root).
    split; eapply Permutation_trans; eassumption.
Qed.

Lemma same_tree_File (data : string) (n : node) :
  same_tree (File data) n -> n = File data.
Proof. now inversion 1. Qed.

Lemma same_tree_root_entries (fs1 fs2 : node) (include : string) :
  same_tree fs1 fs2 -> wf fs1 = true ->
  Permutation (root_entries fs1 include) (root_entries fs2 include).
Proof.
  intros Hs Hwf. unfold root_entries.
  pose proof (same_tree_lookup (Path include) _ _ Hs Hwf) as Hl.
  destruct (lookup fs1 (Path include)) as [[data|es1]|],
           (lookup fs2 (Path include)) as [n2|]; cbn in Hl; try tauto.
  - rewrite (same_tree_File _ _ Hl). apply Permutation_refl.
  - destruct n2 as [?|es2]; [inversion Hl|].
    now apply same_tree_entries.
  - apply Permutation_refl.
Qed.

Lemma flat_map_Permutation {A B : Type} (f g : A -> list B) (l : list A) :
  (forall a, Permutation (f a) (g a)) ->
  Permutation (flat_map f l) (flat_map g l).
Proof.
  intros H. induction l as [|a l IH]; cbn [flat_map]; [constructor|].
  now apply Permutation_app.
Qed.

Lemma same_tree_is_dir (p : list string) (fs1 fs2 : node) :
  same_tree fs1 fs2 -> wf fs1 = true -> is_dir fs1 p = is_dir fs2 p.
Proof.
  intros Hs Hwf. unfold is_dir.
  pose proof (same_tree_lookup p _ _ Hs Hwf) as Hl.
  destruct (lookup fs1 p) as [[data|es1]|], (lookup fs2 p) as [n2|];
    cbn in Hl; try tauto.
  - now rewrite (same_tree_File _ _ Hl).
  - now inversion Hl.
Qed.

Lemma same_tree_can_open (fs1 fs2 : node) :
  same_tree fs1 fs2 -> wf fs1 = true -> can_open fs1 = can_open fs2.
Proof.
  intros Hs Hwf. unfold can_open.
  now rewrite (same_tree_is_dir [] _ _ Hs Hwf),
              (same_tree_is_dir (Path zip_filename) _ _ Hs Hwf).
Qed.

(** C7: two runs over one unchanged tree, well-formed and such that the
    archive can be opened in it, both complete and end with archives that
    hold the same entries, each name with the same bytes, even when the
    directories are listed in another order, and whatever the sizes of the
    two archive files; with the same listing order the entries also come in
    the same order. *)
Theorem C7_same_tree_same_entries
  (getsize1 getsize2 : list entry -> N) (fs1 fs2 : node) :
  wf fs1 = true -> can_open fs1 = true -> same_tree fs1 fs2 ->
  exists w1 w2,
    create_zip getsize1 fs1 = Ok w1
    /\ create_zip getsize2 fs2 = Ok w2
    /\ Permutation (zip w1) (zip w2)
    /\ (forall e, In e (zip w1) <-> In e (zip w2))
    /\ (fs1 = fs2 -> zip w1 = zip w2).
Proof.
  intros Hwf Hopen Hs.
  assert (Hopen2 : can_open fs2 = true)
    by (now rewrite <- (same_tree_can_open _ _ Hs Hwf)).
  destruct (create_zip_run getsize1 fs1 Hwf Hopen) as (w1 & Hrun1 & Hz1 & _).
  destruct (create_zip_run getsize2 fs2 (same_tree_wf _ _ Hs Hwf) Hopen2)
    as (w2 & Hrun2 & Hz2 & _).
  assert (Hperm : Permutation (zip w1) (zip w2)).
  { rewrite Hz1, Hz2. apply flat_map_Permutation.
    intros include. now apply same_tree_root_entries. }
  exists w1, w2. repeat split; auto.
  - now apply Permutation_in.
  - apply Permutation_in. now apply Permutation_sym.
  - intros <-. now rewrite Hz1, Hz2.
Qed.

Lemma sample_relisted_same : same_tree sample sample_relisted.
Proof.
  assert (rev2 : forall a b : string * node, same_entries [a; b] [b; a])
    by (intros; apply same_swap).
  assert (keep : forall es, same_entries es es).
  { intros es. induction es as [|[k c] es IH]; constructor;
      [apply same_tree_refl | exact IH]. }
  assert (cons_same : forall (x : string * node) es1 es2,
             same_entries es1 es2 -> same_entries (x :: es1) (x :: es2)).
  { intros [k c] es1 es2 H. constructor; [apply same_tree_refl | exact H]. }
  unfold sample, sample_relisted. constructor.
  (* the top level: reverse the four entries, then relist inside *)
  set (pkg := ("package.json", File "{}")).
  set (old := ("clean-machine-core.zip", File "old")).
  set (srv := ("server", _)). set (cli := ("client", _)).
  eapply same_trans;
    [ apply cons_same, cons_same, rev2 |].
  eapply same_trans; [ apply cons_same, same_swap |].
  eapply same_trans; [ apply same_swap |].
  eapply same_trans; [ apply cons_same, cons_same, same_swap |].
  eapply same_trans; [ apply cons_same, same_swap |].
  eapply same_trans; [ apply cons_same, cons_same, same_swap |].
  subst pkg old srv cli.
  constructor; [constructor; apply rev2|].
  constructor; [|apply keep].
  constructor.
  set (a := ("index.ts", File "main")). set (b := ("notes.txt", File "todo")).
  set (c := ("tests", _)). set (d := ("empty", Dir [])).
  set (e := ("lib", _)).
  (* [a; b; c; d; e] to [e'; d; b; c; a] *)
  eapply same_trans; [ apply cons_same, cons_same, cons_same, rev2 |].
  eapply same_trans; [ apply cons_same, cons_same, same_swap |].
  eapply same_trans; [ apply cons_same, same_swap |].
  eapply same_trans; [ apply same_swap |].
  (* e a b c d *)
  eapply same_trans; [ apply cons_same, cons_same, cons_same, rev2 |].
  eapply same_trans; [ apply cons_same, cons_same, same_swap |].
  eapply same_trans; [ apply cons_same, same_swap |].
  (* e d a b c *)
  eapply same_trans; [ apply cons_same, cons_same, same_swap |].
  eapply same_trans;
    [ apply cons_same, cons_same, cons_same, rev2 |].
  (* e d b c a *)
  subst a b c d e.
  constructor; [constructor; apply rev2 | apply keep].
Qed.

Lemma C7_same_tree_same_entries_witness :
  exists w1 w2,
    create_zip sample_size sample = Ok w1
    /\ create_zip sample_size sample_relisted = Ok w2
    /\ Permutation (zip w1) (zip w2).
Proof.
  destruct (C7_same_tree_same_entries sample_size sample_size sample
              sample_relisted eq_refl eq_refl sample_relisted_same)
    as (w1 & w2 & H1 & H2 & Hperm & _).
  exists w1, w2. repeat split; assumption.
Defined.

(** ** The console *)

Lemma round_half_even_near (a b : N) :
  (0 < b)%N ->
  let h := round_half_even a b in
  (2 * (h * b) <= 2 * a + b)%N /\ (2 * a <= 2 * (h * b) + b)%N
  /\ ((2 * (h * b) = 2 * a + b \/ 2 * a = 2 * (h * b) + b)%N ->
      N.even h = true).
Proof.
  intros Hb h. subst h. unfold round_half_even.
  pose proof (N.div_mod a b ltac:(lia)) as Hdm.
  pose proof (N.mod_lt a b ltac:(lia)) as Hlt.
  set (q := (a / b)%N) in *. set (r := (a mod b)%N) in *.
  assert (Hqb : (q * b = b * q)%N) by apply N.mul_comm.
  destruct (N.ltb_spec (2 * r) b) as [H1|H1].
  - repeat split; try lia.
  - destruct (N.ltb_spec b (2 * r)) as [H2|H2].
    + repeat split; try lia.
    + destruct (N.even q) eqn:Hev.
      * repeat split; try lia. auto.
      * repeat split; try lia. intros _.
        rewrite N.add_1_r, N.even_succ, <- N.negb_even, Hev. reflexivity.
Qed.

Lemma float_of_small (n : N) : (n < 2 ^ 53)%N -> float_of n = n.
Proof.
  intros Hn. unfold float_of.
  assert (He : (N.log2 n - 52 = 0)%N).
  { apply N.sub_0_le. destruct (N.eq_dec n 0) as [->|Hnz]; [cbn; lia|].
    apply N.lt_succ_r. change (N.succ 52) with 53%N.
    apply N.log2_lt_pow2; lia. }
  rewrite He. cbv zeta. change (2 ^ 0)%N with 1%N.
  unfold round_half_even. rewrite N.div_1_r, N.mod_1_r. cbn. lia.
Qed.

Lemma hundredths_small (size : N) :
  (size < 2 ^ 53)%N ->
  hundredths size = round_half_even (size * 100) (1024 * 1024).
Proof. intros H. unfold hundredths. now rewrite (float_of_small _ H). Qed.

Lemma hundredths_near (size : N) :
  (size < 2 ^ 53)%N -> nearest_hundredth size (hundredths size).
Proof.
  intros H. rewrite (hundredths_small _ H).
  exact (round_half_even_near (size * 100) (1024 * 1024) eq_refl).
Qed.

Lemma decimal_numeral (n : N) : numeral (decimal n) n.
Proof.
  exists (N.to_uint n). unfold decimal. split; [apply NilEmpty.usu|]. split.
  - rewrite <- (Unsigned.of_to n) at 2. symmetry. apply Unsigned.to_of.
  - apply Unsigned.of_to.
Qed.

Lemma two_digits (r : nat) :
  r < 100 ->
  digits 2 (decimal (N.of_nat r / 10) ++ decimal (N.of_nat r mod 10))
         (N.of_nat r).
Proof.
  intros Hr.
  do 100 (destruct r as [|r];
          [split; [reflexivity | eexists; split; reflexivity]|]).
  lia.
Qed.

Lemma format_2f_shape (size : N) :
  let h := hundredths size in
  exists int frac,
    format_2f size = int ++ "." ++ frac
    /\ numeral int (h / 100) /\ digits 2 frac (h mod 100).
Proof.
  intros h. unfold format_2f. fold h.
  exists (decimal (h / 100)),
         (decimal (h mod 100 / 10) ++ decimal (h mod 10)).
  split; [reflexivity|]. split; [apply decimal_numeral|].
  assert (Hlt : (h mod 100 < 100)%N) by (apply N.mod_lt; lia).
  assert (Hm : (h mod 10 = (h mod 100) mod 10)%N).
  { change 100%N with (10 * 10)%N. rewrite N.Div0.mod_mul_r.
    rewrite (N.mul_comm 10), N.Div0.mod_add.
    now rewrite N.Div0.mod_mod. }
  rewrite Hm. set (r := (h mod 100)%N) in *.
  rewrite <- (N2Nat.id r). apply two_digits. lia.
Qed.

(** C8: on a well-formed tree in which the archive can be opened, and with
    an archive file of less than 2^53 bytes, the run completes and prints
    one line for each file added, naming that file, in the order the files
    are added, and then one summary line; the number in it is the size in
    bytes divided by 1024 * 1024 and rounded to the nearest hundredth (a tie
    goes to the even hundredth), printed as a decimal numeral, a point, and
    two digits. *)
Theorem C8_console_report (getsize : list entry -> N) (fs : node) :
  wf fs = true -> can_open fs = true ->
  (forall es, getsize es < 2 ^ 53)%N ->
  exists w,
    create_zip getsize fs = Ok w
    /\ stdout w
       = (map (fun e => ("Adding file: " ++ arcname e)%string) (zip w)
          ++ [summary (getsize (zip w))])%list
    /\ exists h int frac,
         summary (getsize (zip w))
         = newline ++ "Created clean-machine-core.zip (" ++ int ++ "."
           ++ frac ++ " MB)"
         /\ numeral int (h / 100)
         /\ digits 2 frac (h mod 100)
         /\ nearest_hundredth (getsize (zip w)) h.
Proof.
  intros Hwf Hopen Hsize.
  destruct (create_zip_run getsize fs Hwf Hopen) as (w & Hrun & Hz & Hout & _).
  exists w. split; [assumption|]. split.
  - rewrite Hout. f_equal. apply map_ext_in. intros e He.
    rewrite Hz in He. apply root_entries_reachable in He.
    destruct He as (? & ? & _ & -> & _). reflexivity.
  - destruct (format_2f_shape (getsize (zip w))) as (int & frac & Hf & Hi & Hd).
    exists (hundredths (getsize (zip w))), int, frac.
    split; [|split; [assumption | split; [assumption|]]].
    + unfold summary. rewrite Hf.
      change zip_filename with "clean-machine-core.zip".
      rewrite !append_assoc. reflexivity.
    + apply hundredths_near, Hsize.
Qed.

Lemma C8_console_report_witness :
  exists w,
    create_zip sample_size sample = Ok w
    /\ stdout w
       = (map (fun e => ("Adding file: " ++ arcname e)%string) (zip w)
          ++ [summary (sample_size (zip w))])%list
    /\ exists h int frac,
         summary (sample_size (zip w))
         = newline ++ "Created clean-machine-core.zip (" ++ int ++ "."
           ++ frac ++ " MB)"
         /\ numeral int (h / 100)
         /\ digits 2 frac (h mod 100)
         /\ nearest_hundredth (sample_size (zip w)) h.
Proof.
  apply (C8_console_report sample_size sample eq_refl eq_refl).
  intros es. reflexivity.
Defined.

(** Beyond 2^53 bytes the size is rounded to a double before it is
    divided: 12876535275249991 bytes print as 12280020976.31, where the
    exact quotient would round to 12280020976.30. *)
Example format_2f_of_a_rounded_size :
  float_of 12876535275249991 = 12876535275249992%N
  /\ format_2f 12876535275249991 = "12280020976.31"
  /\ round_half_even (12876535275249991 * 100) (1024 * 1024)
     = 1228002097630%N.
Proof. repeat split; vm_compute; reflexivity. Qed.

Example format_2f_examples :
  format_2f 0 = "0.00" /\ format_2f 131072 = "0.12"
  /\ format_2f 393216 = "0.38" /\ format_2f 1048576 = "1.00"
  /\ format_2f 123456789 = "117.74".
Proof. repeat split; reflexivity. Qed.

(** * Further properties of the script *)

(** ** The exclusion predicate on longer paths and longer rule lists *)

(** A path in which an excluded path occurs is excluded: whatever is put
    before or after an excluded string, such as a directory in front of it
    or a file name behind it, the result stays excluded. *)
Theorem excluded_part_excludes_whole (a s b : string) :
  should_exclude s = true -> should_exclude (a ++ s ++ b) = true.
Proof.
  rewrite !should_exclude_occurs. intros (pat & Hin & Hocc).
  exists pat. split; [assumption | now apply occurs_in_app].
Qed.

Lemma excluded_part_excludes_whole_witness :
  should_exclude ("client/" ++ "dist" ++ "/bundle.js") = true.
Proof.
  apply (excluded_part_excludes_whole "client/" "dist" "/bundle.js").
  reflexivity.
Defined.

(** The loop of [should_exclude] over two rule lists put together answers
    as the two loops do, one or the other; so rules added to the list never
    bring back a path that was excluded. *)
Theorem any_in_app (rules more : list string) (p : string) :
  any_in (rules ++ more) p = any_in rules p || any_in more p.
Proof.
  induction rules as [|r rules IH]; cbn [any_in app]; [reflexivity|].
  destruct (Str.contains r p); [reflexivity | exact IH].
Qed.

(** ** What the archive holds *)

Lemma append_nil_r (s : string) : s ++ "" = s.
Proof. induction s as [|c s IH]; simpl; [reflexivity | now rewrite IH]. Qed.

Lemma root_entries_prefix (fs : node) (include : string) (e : entry) :
  wf fs = true -> In e (root_entries fs include) ->
  exists rest, arcname e = str (Path include) ++ rest.
Proof.
  intros Hwf He. unfold root_entries in He.
  destruct (lookup fs (Path include)) as [[data|es]|] eqn:Hl; [| |destruct He].
  - destruct (negb (should_exclude (str (Path include)))); [|destruct He].
    destruct He as [<-|[]]. exists "". cbn [arcname].
    now rewrite append_nil_r.
  - apply tree_entries_file_at in He.
    destruct He as (above & data & Hat & _).
    pose proof (file_at_prefix _ _ _ _ _ Hat (lookup_wf _ _ _ Hwf Hl)
                  (good_root_str _ (Path_parts include))) as Hpre.
    now inversion Hpre.
Qed.

(** A file that lies under a directory with an excluded path has an
    excluded path itself, on every well-formed tree: the pruning of
    excluded directories skips no file that the test on files would have
    let through. *)
Theorem file_under_excluded_directory_is_excluded
  (fs : node) (roots under : list string) (p data : string) :
  wf fs = true -> reachable fs roots under p data ->
  (exists d, In d under /\ should_exclude d = true) ->
  should_exclude p = true.
Proof. apply reachable_under_excluded. Qed.

Lemma file_under_excluded_directory_witness :
  should_exclude "server/tests/foo.ts" = true.
Proof.
  apply (file_under_excluded_directory_is_excluded sample includes
           ["server"; "server/tests"] "server/tests/foo.ts" "test").
  - reflexivity.
  - eapply (reach_below sample includes "server");
      [right; now left | reflexivity |].
    eapply file_below with (d := "tests");
      [cbn; right; right; left; reflexivity|].
    apply (file_here "server/tests" _ "foo.ts" "test"). now left.
  - exists "server/tests". split; [right; now left | reflexivity].
Defined.

(** On a well-formed tree in which the archive can be opened, the run
    completes and the archive holds exactly the files reachable from the
    root list whose path is not excluded, each stored under that path with
    its bytes: nothing else is in it and none of them is missing. *)
Theorem archive_is_exactly_the_included_files
  (getsize : list entry -> N) (fs : node) :
  wf fs = true -> can_open fs = true ->
  exists w,
    create_zip getsize fs = Ok w
    /\ forall e,
         In e (zip w) <->
         exists under p data,
           reachable fs includes under p data
           /\ should_exclude p = false
           /\ e = mkEntry p p (Regular data).
Proof.
  intros Hwf Hopen.
  destruct (create_zip_run getsize fs Hwf Hopen) as (w & Hrun & Hz & _).
  exists w. split; [assumption|]. intros e. rewrite Hz. split.
  - intros He. apply root_entries_reachable in He.
    destruct He as (under & data & Hr & Heq & Hex).
    exists under, (arcname e), data. auto.
  - intros (under & p & data & Hr & Hex & ->).
    eapply reachable_root_entries; eassumption.
Qed.

Lemma archive_is_exactly_the_included_files_witness :
  exists w,
    create_zip sample_size sample = Ok w
    /\ ~ In (mkEntry "server/notes.txt" "server/notes.txt" (Regular "todo"))
            (zip w).
Proof.
  destruct (archive_is_exactly_the_included_files sample_size sample eq_refl eq_refl)
    as (w & Hrun & Hiff).
  exists w. split; [assumption|]. intros Hin. apply Hiff in Hin.
  destruct Hin as (under & p & data & _ & Hex & Heq).
  inversion Heq; subst. discriminate Hex.
Defined.

(** ** Which roots contribute *)

Lemma includes_kept_or_dropped (include : string) :
  In include includes ->
  (In include kept_roots /\ should_exclude include = false)
  \/ (In include dropped_roots /\ should_exclude include = true).
Proof.
  intros H.
  repeat (destruct H as [<-|H];
          [first [left; split; [cbn; tauto | reflexivity]
                 |right; split; [cbn; tauto | reflexivity]]|]).
  destruct H.
Qed.

Lemma dropped_root_no_entries (fs : node) (include : string) :
  wf fs = true -> In include dropped_roots -> root_entries fs include = [].
Proof.
  intros Hwf Hd.
  destruct (root_entries fs include) as [|e l] eqn:E; [reflexivity|].
  assert (He : In e (root_entries fs include)) by (rewrite E; now left).
  destruct (root_entries_prefix _ _ _ Hwf He) as [rest Hp].
  assert (Hin : In e (flat_map (root_entries fs) [include]))
    by (cbn [flat_map]; rewrite app_nil_r; exact He).
  apply root_entries_reachable in Hin.
  destruct Hin as (_ & _ & _ & _ & Hex).
  assert (Hroot : should_exclude (str (Path include)) = true).
  { clear - Hd. repeat (destruct Hd as [<-|Hd]; [reflexivity|]). destruct Hd. }
  rewrite Hp, (excluded_prefix _ rest Hroot) in Hex. discriminate.
Qed.

(** Of the ten roots of the script only six can contribute to the archive:
    on a well-formed tree in which the archive can be opened, the run
    completes and every entry name starts with one of "client/src", "server",
    "shared/schema.ts", "package.json", "tsconfig.json" and
    "components.json".  The roots "drizzle.config.ts",
    "tailwind.config.ts", "vite.config.ts" and "postcss.config.js" have the
    pattern ".config" in them: whether such a root is a file, a directory
    or missing, processing it writes nothing and prints nothing. *)
Theorem only_the_kept_roots_contribute
  (getsize : list entry -> N) (fs : node) :
  wf fs = true -> can_open fs = true ->
  (exists w,
     create_zip getsize fs = Ok w
     /\ forall e, In e (zip w) ->
          exists root rest, In root kept_roots /\ arcname e = root ++ rest)
  /\ (forall include w0,
        In include dropped_roots ->
        exists w1,
          add_include fs include w0 = Ok w1
          /\ zip w1 = zip w0 /\ stdout w1 = stdout w0).
Proof.
  intros Hwf Hopen. split.
  - destruct (create_zip_run getsize fs Hwf Hopen) as (w & Hrun & Hz & _).
    exists w. split; [assumption|]. intros e He. rewrite Hz in He.
    pose proof (root_entries_reachable _ _ _ He) as (_ & _ & _ & _ & Hex).
    apply in_flat_map in He. destruct He as (include & Hinc & He).
    destruct (root_entries_prefix _ _ _ Hwf He) as [rest Hp].
    rewrite (includes_normal _ Hinc) in Hp.
    destruct (includes_kept_or_dropped _ Hinc) as [[Hk _]|[_ Hd]].
    + exists include, rest. auto.
    + rewrite Hp, (excluded_prefix _ rest Hd) in Hex. discriminate.
  - intros include w0 Hd. rewrite (add_include_ok _ _ _ Hwf).
    rewrite (dropped_root_no_entries _ _ Hwf Hd). eexists.
    split; [reflexivity|]. cbn [zip stdout extend map].
    now rewrite !app_nil_r.
Qed.

Lemma only_the_kept_roots_contribute_witness :
  exists w1,
    add_include config_tree "vite.config.ts" empty_world = Ok w1
    /\ zip w1 = [] /\ stdout w1 = [].
Proof.
  destruct (only_the_kept_roots_contribute sample_size config_tree eq_refl eq_refl)
    as [_ H].
  apply (H "vite.config.ts" empty_world). cbn. tauto.
Defined.

(** ** A run that finds no root *)

Lemma add_includes_all_missing (fs : node) (roots : list string) (w : world) :
  (forall include, In include roots ->
     is_file fs (Path include) = false /\ is_dir fs (Path include) = false) ->
  add_includes fs roots w = Ok w.
Proof.
  induction roots as [|r roots IH]; intros H; cbn [add_includes];
    [reflexivity|].
  destruct (H r (or_introl eq_refl)) as [Hf Hd].
  rewrite (add_include_missing _ _ _ Hf Hd). cbn [bind].
  apply IH. intros include Hin. apply H. now right.
Qed.

(** When the archive can be opened in the working directory and none of
    the roots exists there, the run completes, on a tree that need not be
    well-formed: the archive is created empty, no directory is listed, and
    the console shows the summary line alone. *)
Theorem run_without_any_root (getsize : list entry -> N) (fs : node) :
  can_open fs = true ->
  (forall include, In include includes ->
     is_file fs (Path include) = false /\ is_dir fs (Path include) = false) ->
  create_zip getsize fs = Ok (mkWorld [] [summary (getsize [])] []).
Proof.
  intros Hopen H.
  destruct (ZipFile_ok fs Hopen) as (opened & Hzip & _ & Hsame).
  unfold create_zip. rewrite Hzip. cbn [bind].
  rewrite add_includes_all_missing; [reflexivity|].
  intros include Hin. unfold is_file, is_dir.
  rewrite (ZipFile_roots _ _ _ Hsame Hin). exact (H include Hin).
Qed.

Lemma run_without_any_root_witness :
  create_zip sample_size (Dir [("README.md", File "readme")])
  = Ok (mkWorld [] [summary 131072] []).
Proof.
  apply (run_without_any_root sample_size (Dir [("README.md", File "readme")]));
    [reflexivity|].
  intros include Hin.
  repeat (destruct Hin as [<-|Hin]; [split; reflexivity|]). destruct Hin.
Defined.

(** ** What the run does not look at *)

(** Once the archive can be opened, the run depends on the working
    directory only through what is found at the roots: two well-formed trees
    in which the archive can be opened and which have the same file or
    directory at every root, however they differ elsewhere, give the same
    archive, the same console output and the same directory listings. *)
Theorem run_depends_only_on_the_roots
  (getsize : list entry -> N) (fs1 fs2 : node) :
  wf fs1 = true -> wf fs2 = true ->
  can_open fs1 = true -> can_open fs2 = true ->
  (forall include, In include includes ->
     lookup fs1 (Path include) = lookup fs2 (Path include)) ->
  exists w, create_zip getsize fs1 = Ok w /\ create_zip getsize fs2 = Ok w.
Proof.
  intros Hwf1 Hwf2 Hopen1 Hopen2 Hsame.
  rewrite (create_zip_ok _ _ Hwf1 Hopen1), (create_zip_ok _ _ Hwf2 Hopen2).
  assert (He : flat_map (root_entries fs1) includes
               = flat_map (root_entries fs2) includes).
  { apply flat_map_same. intros include Hin. unfold root_entries.
    now rewrite (Hsame _ Hin). }
  assert (Hd : flat_map (root_dirs fs1) includes
               = flat_map (root_dirs fs2) includes).
  { apply flat_map_same. intros include Hin. unfold root_dirs.
    now rewrite (Hsame _ Hin). }
  rewrite He, Hd. eexists. split; reflexivity.
Qed.

Lemma run_depends_only_on_the_roots_witness :
  exists w,
    create_zip sample_size sample = Ok w
    /\ create_zip sample_size sample_elsewhere = Ok w.
Proof.
  apply (run_depends_only_on_the_roots sample_size sample sample_elsewhere);
    [reflexivity | reflexivity | reflexivity | reflexivity |].
  intros include Hin.
  repeat (destruct Hin as [<-|Hin]; [reflexivity|]). destruct Hin.
Defined.

(** ** The size in the summary line *)

Lemma round_half_even_mono (a1 a2 b : N) :
  (0 < b)%N -> (a1 <= a2)%N ->
  (round_half_even a1 b <= round_half_even a2 b)%N.
Proof.
  intros Hb Hle. destruct (N.eq_dec a1 a2) as [->|Hne]; [lia|].
  pose proof (round_half_even_near a1 b Hb) as (H1 & _ & _).
  pose proof (round_half_even_near a2 b Hb) as (_ & H2 & _).
  cbv zeta in H1, H2.
  set (h1 := round_half_even a1 b) in *.
  set (h2 := round_half_even a2 b) in *.
  assert (Hlt : (2 * (h1 * b) < 2 * ((h2 + 1) * b))%N) by lia.
  destruct (N.le_gt_cases h1 h2) as [|Hgt]; [assumption|].
  assert ((h2 + 1) * b <= h1 * b)%N by (apply N.mul_le_mono_r; lia).
  lia.
Qed.

Lemma round_half_even_exact (k b : N) :
  (0 < b)%N -> round_half_even (k * b) b = k.
Proof.
  intros Hb. unfold round_half_even.
  rewrite N.div_mul, N.Div0.mod_mul by lia.
  destruct (N.ltb_spec (2 * 0) b); [reflexivity | lia].
Qed.

(** For archive files of less than 2^53 bytes, the number in the summary
    line grows with the archive: a larger file never reports fewer
    hundredths of a megabyte.  A file of whole megabytes reports exactly
    that many, and the hundredths printed are 0 exactly for files of at
    most 5242 bytes. *)
Theorem reported_size_is_monotone_and_exact (size1 size2 : N) :
  (size1 <= size2)%N -> (size2 < 2 ^ 53)%N ->
  (hundredths size1 <= hundredths size2)%N
  /\ (forall mb, mb * (1024 * 1024) < 2 ^ 53 ->
                 hundredths (mb * (1024 * 1024)) = mb * 100)%N
  /\ (hundredths size1 = 0 <-> size1 <= 5242)%N.
Proof.
  intros Hle Hb2.
  assert (Hb1 : (size1 < 2 ^ 53)%N) by (eapply N.le_lt_trans; eassumption).
  rewrite (hundredths_small _ Hb1), (hundredths_small _ Hb2).
  split; [|split].
  - apply round_half_even_mono; lia.
  - intros mb Hmb. rewrite (hundredths_small _ Hmb).
    replace (mb * (1024 * 1024) * 100)%N with (mb * 100 * (1024 * 1024))%N
      by lia.
    apply round_half_even_exact. lia.
  - pose proof (round_half_even_near (size1 * 100) (1024 * 1024) eq_refl)
      as (H1 & H2 & _). cbv zeta in H1, H2.
    set (h := round_half_even (size1 * 100) (1024 * 1024)) in *.
    split; [intros Hz; rewrite Hz in H2; lia|].
    intros Hs. destruct (N.eq_dec h 0) as [|Hnz]; [assumption|].
    assert (1 * (1024 * 1024) <= h * (1024 * 1024))%N
      by (apply N.mul_le_mono_r; lia).
    lia.
Qed.

Lemma reported_size_witness :
  (hundredths 131072 <= hundredths 393216)%N.
Proof.
  apply (reported_size_is_monotone_and_exact 131072 393216);
    [lia | reflexivity].
Defined.

(** ** What every completed run keeps, on any tree *)

Section Grows.

Variable fs : node.

Lemma grows_refl (w : world) : grows w w.
Proof. exists []. cbn [map]. now rewrite !app_nil_r. Qed.

Lemma grows_trans (w1 w2 w3 : world) :
  grows w1 w2 -> grows w2 w3 -> grows w1 w3.
Proof.
  intros (e1 & Hz1 & Hs1 & Hf1) (e2 & Hz2 & Hs2 & Hf2).
  exists (e1 ++ e2)%list. rewrite Hz2, Hz1, Hs2, Hs1, map_app, !app_assoc.
  repeat split. now apply Forall_app.
Qed.

Lemma bind_Ok {A B : Type} (m : result A) (k : A -> result B) (b : B) :
  bind m k = Ok b -> exists a, m = Ok a /\ k a = Ok b.
Proof. destruct m as [a|e]; cbn; [eauto | discriminate]. Qed.

Lemma zipf_write_grows (p : string) (w w' : world) :
  should_exclude p = false ->
  zipf_write fs p p (print ("Adding file: " ++ p) w) = Ok w' -> grows w w'.
Proof.
  intros Hex. unfold zipf_write.
  destruct (resolve fs p) as [[data|es]|]; [| |discriminate];
    intros [= <-]; eexists [_]; cbn; repeat split; auto.
Qed.

Lemma add_files_grows (root : string) (files : list string) :
  forall w w', add_files fs root files w = Ok w' -> grows w w'.
Proof.
  induction files as [|f files IH]; intros w w'; cbn [add_files].
  - intros [= <-]. apply grows_refl.
  - destruct (should_exclude (join root f)) eqn:Hex; cbn [negb]; [apply IH|].
    intros H. apply bind_Ok in H. destruct H as (w1 & Hw & Hrest).
    apply (grows_trans _ w1); [|now apply IH].
    exact (zipf_write_grows _ _ _ Hex Hw).
Qed.

Lemma descend_grows (root : string) (es : list (string * node)) :
  Forall (fun c => forall r w w',
            walk fs r (snd c) w = Ok w' -> grows w w') es ->
  forall w w', descend fs root es w = Ok w' -> grows w w'.
Proof.
  induction 1 as [|[d [data|sub]] es Hc _ IH]; intros w w';
    cbn [descend].
  - intros [= <-]. apply grows_refl.
  - apply IH.
  - destruct (negb (should_exclude (join root d))); [|apply IH].
    intros H. apply bind_Ok in H. destruct H as (w1 & Hw & Hrest).
    apply (grows_trans _ w1); [exact (Hc _ _ _ Hw) | now apply IH].
Qed.

Lemma walk_grows (n : node) :
  forall root w w', walk fs root n w = Ok w' -> grows w w'.
Proof.
  induction n as [data|es IH] using node_ind'; intros root w w'.
  - intros [= <-]. apply grows_refl.
  - rewrite walk_Dir. intros H. apply bind_Ok in H.
    destruct H as (w1 & Hw & Hrest).
    apply (grows_trans _ (scandir root w));
      [exists []; cbn; now rewrite !app_nil_r|].
    apply (grows_trans _ w1);
      [exact (add_files_grows _ _ _ _ Hw) | exact (descend_grows _ _ IH _ _ Hrest)].
Qed.

Lemma add_include_grows (include : string) (w w' : world) :
  add_include fs include w = Ok w' -> grows w w'.
Proof.
  unfold add_include, os_walk.
  destruct (is_file fs (Path include)).
  - destruct (should_exclude (str (Path include))) eqn:Hex; cbn [negb].
    + intros [= <-]. apply grows_refl.
    + now apply zipf_write_grows.
  - destruct (is_dir fs (Path include));
      [|intros [= <-]; apply grows_refl].
    destruct (resolve fs (str (Path include))) as [[data|es]|];
      try (intros [= <-]; apply grows_refl).
    apply walk_grows.
Qed.

Lemma add_includes_grows (roots : list string) :
  forall w w', add_includes fs roots w = Ok w' -> grows w w'.
Proof.
  induction roots as [|r roots IH]; intros w w'; cbn [add_includes].
  - intros [= <-]. apply grows_refl.
  - intros H. apply bind_Ok in H. destruct H as (w1 & Hw & Hrest).
    apply (grows_trans _ w1);
      [exact (add_include_grows _ _ _ Hw) | now apply IH].
Qed.

(** On any tree whatever, well-formed or not, and from any state of the
    archive and the console, processing a list of roots that completes only
    appends: what was in the archive and on the console stays, in place;
    each new entry is announced by one "Adding file:" line, in the same
    order, is stored under the very path it was read from, and that path is
    not excluded. *)
Theorem completed_roots_only_append (roots : list string) (w w' : world) :
  add_includes fs roots w = Ok w' ->
  exists es,
    zip w' = (zip w ++ es)%list
    /\ stdout w'
       = (stdout w ++ map (fun e => ("Adding file: " ++ arcname e)%string) es)%list
    /\ Forall (fun e => filename e = arcname e
                        /\ should_exclude (arcname e) = false) es.
Proof.
  intros H. destruct (add_includes_grows _ _ _ H) as (es & Hz & Hs & Hf).
  exists es. repeat split; auto. rewrite Hs. f_equal.
  apply map_ext_in. intros e He. rewrite Forall_forall in Hf.
  unfold adding_line. now rewrite (proj1 (Hf e He)).
Qed.

End Grows.

Lemma completed_roots_only_append_witness :
  exists es,
    zip (mkWorld [mkEntry "a" "b" Directory;
                  mkEntry "server/a" "server/a" (Regular "1");
                  mkEntry "server/a" "server/a" (Regular "1")]
                 ["kept"; "Adding file: server/a"; "Adding file: server/a"]
                 ["server"])
    = ([mkEntry "a" "b" Directory] ++ es)%list
    /\ Forall (fun e => filename e = arcname e
                        /\ should_exclude (arcname e) = false) es.
Proof.
  destruct (completed_roots_only_append
              (Dir [("server", Dir [("a", File "1"); ("a", File "2")])])
              ["server"; "missing"]
              (mkWorld [mkEntry "a" "b" Directory] ["kept"] [])
              (mkWorld [mkEntry "a" "b" Directory;
                        mkEntry "server/a" "server/a" (Regular "1");
                        mkEntry "server/a" "server/a" (Regular "1")]
                 ["kept"; "Adding file: server/a"; "Adding file: server/a"]
                 ["server"])
              eq_refl) as (es & Hz & _ & Hf).
  exists es. split; assumption.
Defined.

(** ** The shape of entry names *)

Lemma concat_snoc (l : list string) (x : string) :
  l <> [] ->
  String.concat "/" (l ++ [x]) = String.concat "/" l ++ "/" ++ x.
Proof.
  induction l as [|a l IH]; intros Hne; [now destruct Hne|].
  destruct l as [|b l]; [reflexivity|].
  change (String.concat "/" ((a :: b :: l) ++ [x]))
    with (a ++ "/" ++ String.concat "/" ((b :: l) ++ [x])).
  rewrite IH by discriminate.
  rewrite concat_cons2, !append_assoc. reflexivity.
Qed.

(** A path in the form pathlib prints it, with at least one part and no
    ".." among its parts. *)
Lemma normal_snoc (root name : string) :
  Path root <> [] -> str (Path root) = root -> ~ In ".." (Path root) ->
  valid_name name = true ->
  Path (root ++ "/" ++ name) <> []
  /\ str (Path (root ++ "/" ++ name)) = root ++ "/" ++ name
  /\ ~ In ".." (Path (root ++ "/" ++ name)).
Proof.
  intros Hne Hstr Hdd Hv. pose proof (valid_name_part _ Hv) as Hp.
  rewrite (Path_snoc _ _ Hp). repeat split.
  - destruct (Path root); discriminate.
  - unfold str in *. destruct (Path root) as [|a l] eqn:E;
      [now destruct Hne|].
    change ((a :: l) ++ [name])%list with (a :: (l ++ [name]))%list.
    change (a :: (l ++ [name]))%list with ((a :: l) ++ [name])%list.
    rewrite concat_snoc by discriminate. now rewrite Hstr.
  - rewrite in_app_iff. intros [H|[H|[]]]; [now apply Hdd|].
    subst name. discriminate Hv.
Qed.

Lemma file_at_normal (root : string) (n : node) (above : list string)
  (p data : string) :
  file_at root n above p data -> wf n = true -> good_root root ->
  Path root <> [] -> str (Path root) = root -> ~ In ".." (Path root) ->
  str (Path p) = p /\ ~ In ".." (Path p).
Proof.
  induction 1 as [root es name data Hin|root es d sub above p data Hin Hat IH];
    intros Hwf Hg Hne Hstr Hdd; rewrite wf_Dir, !andb_true_iff in Hwf;
    destruct Hwf as [[Hv Hd] Hes];
    pose proof (valid_names_In _ _ _ Hv Hin) as Hname;
    pose proof (valid_name_part _ Hname) as Hp;
    destruct (normal_snoc _ _ Hne Hstr Hdd Hname) as (N1 & N2 & N3);
    rewrite (join_good _ _ Hg Hp) in *.
  - split; assumption.
  - apply IH; auto.
    + exact (wf_entries_In _ _ _ Hes Hin).
    + now apply good_root_snoc.
Qed.

Lemma includes_are_normal (include : string) :
  In include includes ->
  Path include <> [] /\ ~ In ".." (Path include)
  /\ forall rest, prefix "/" (include ++ rest) = false.
Proof.
  intros H.
  repeat (destruct H as [<-|H];
          [split; [|split];
           [vm_compute; discriminate
           |vm_compute; intuition discriminate
           |intros rest; reflexivity]|]).
  destruct H.
Qed.

(** On a well-formed tree in which the archive can be opened, the run
    completes and every entry name of the archive is a relative path in
    normal form: it does not start with "/", it has no "..", no "." and no empty part, and
    parsing it as a path and printing it gives it back. *)
Theorem entry_names_are_normal_relative_paths
  (getsize : list entry -> N) (fs : node) :
  wf fs = true -> can_open fs = true ->
  exists w,
    create_zip getsize fs = Ok w
    /\ forall e, In e (zip w) ->
         prefix "/" (arcname e) = false
         /\ ~ In ".." (Path (arcname e))
         /\ str (Path (arcname e)) = arcname e.
Proof.
  intros Hwf Hopen.
  destruct (create_zip_run getsize fs Hwf Hopen) as (w & Hrun & Hz & _).
  exists w. split; [assumption|]. intros e He. rewrite Hz in He.
  apply in_flat_map in He. destruct He as (include & Hinc & He).
  destruct (includes_are_normal _ Hinc) as (Hne & Hdd & Hslash).
  destruct (root_entries_prefix _ _ _ Hwf He) as [rest Hp].
  rewrite (includes_normal _ Hinc) in Hp.
  split; [rewrite Hp; apply Hslash|].
  unfold root_entries in He. rewrite (includes_normal _ Hinc) in He.
  destruct (lookup fs (Path include)) as [[data|es]|] eqn:Hl; [| |destruct He].
  - destruct (negb (should_exclude include)); [|destruct He].
    destruct He as [<-|[]]. cbn [arcname].
    split; [assumption | now apply includes_normal].
  - apply tree_entries_file_at in He.
    destruct He as (above & data & Hat & _).
    assert (Hg : good_root include).
    { rewrite <- (includes_normal _ Hinc). apply good_root_str, Path_parts. }
    destruct (file_at_normal _ _ _ _ _ Hat (lookup_wf _ _ _ Hwf Hl) Hg Hne
                (includes_normal _ Hinc) Hdd) as [H1 H2].
    split; assumption.
Qed.

Lemma entry_names_are_normal_witness :
  exists w,
    create_zip sample_size sample = Ok w
    /\ forall e, In e (zip w) -> prefix "/" (arcname e) = false.
Proof.
  destruct (entry_names_are_normal_relative_paths sample_size sample eq_refl eq_refl)
    as (w & Hrun & H).
  exists w. split; [assumption|]. intros e He. exact (proj1 (H e He)).
Defined.

(** ** The order of the entries *)

Lemma NoDup_map_inj {A B : Type} (f : A -> B) (l : list A) (a b : A) :
  NoDup (map f l) -> In a l -> In b l -> f a = f b -> a = b.
Proof.
  induction l as [|x l IH]; cbn [map]; intros Hnd Ha Hb Hf; [destruct Ha|].
  inversion Hnd as [|? ? Hnotin Hnd']; subst.
  destruct Ha as [->|Ha], Hb as [->|Hb]; auto.
  - exfalso. apply Hnotin. rewrite Hf. now apply in_map.
  - exfalso. apply Hnotin. rewrite <- Hf. now apply in_map.
Qed.

Lemma head2_of_root (include rest : string) :
  In include includes -> head2 (include ++ rest) = head2 include.
Proof.
  intros H. repeat (destruct H as [<-|H]; [reflexivity|]). destruct H.
Qed.

(** An entry whose name starts with a root of the script was written for
    that root. *)
Lemma entry_of_root (fs : node) (e : entry) (r rest : string) :
  wf fs = true -> In r includes ->
  In e (flat_map (root_entries fs) includes) -> arcname e = r ++ rest ->
  In e (root_entries fs r).
Proof.
  intros Hwf Hr He Hp. apply in_flat_map in He.
  destruct He as (include & Hinc & He).
  pose proof (root_entries_head2 _ _ _ Hwf Hinc He) as Hh.
  rewrite Hp, (head2_of_root _ _ Hr) in Hh.
  assert (Hnd : NoDup (map head2 includes))
    by (apply distinct_NoDup; reflexivity).
  now rewrite (NoDup_map_inj head2 includes r include Hnd Hr Hinc Hh).
Qed.

(** On a well-formed tree in which the archive can be opened, the run
    completes and the archive follows the order of the root list: an entry
    under a root that is listed earlier comes before every entry under a
    root that is listed later. *)
Theorem entries_follow_root_order (getsize : list entry -> N) (fs : node) :
  wf fs = true -> can_open fs = true ->
  exists w,
    create_zip getsize fs = Ok w
    /\ forall before r1 between r2 after e1 e2 rest1 rest2,
         includes = (before ++ r1 :: between ++ r2 :: after)%list ->
         In e1 (zip w) -> In e2 (zip w) ->
         arcname e1 = r1 ++ rest1 -> arcname e2 = r2 ++ rest2 ->
         exists a b c, zip w = (a ++ e1 :: b ++ e2 :: c)%list.
Proof.
  intros Hwf Hopen.
  destruct (create_zip_run getsize fs Hwf Hopen) as (w & Hrun & Hz & _).
  exists w. split; [assumption|].
  intros before r1 between r2 after e1 e2 rest1 rest2 Hinc He1 He2 Hp1 Hp2.
  rewrite Hz in He1, He2.
  assert (Hr1 : In r1 includes)
    by (rewrite Hinc; apply in_or_app; right; now left).
  assert (Hr2 : In r2 includes).
  { rewrite Hinc. apply in_or_app. right. right.
    apply in_or_app. right. now left. }
  pose proof (entry_of_root fs e1 r1 rest1 Hwf Hr1 He1 Hp1) as Hin1.
  pose proof (entry_of_root fs e2 r2 rest2 Hwf Hr2 He2 Hp2) as Hin2.
  clear He1 He2. rename Hin1 into He1. rename Hin2 into He2.
  apply in_split in He1. destruct He1 as (x1 & y1 & E1).
  apply in_split in He2. destruct He2 as (x2 & y2 & E2).
  exists (flat_map (root_entries fs) before ++ x1)%list,
         (y1 ++ flat_map (root_entries fs) between ++ x2)%list,
         (y2 ++ flat_map (root_entries fs) after)%list.
  rewrite Hz, Hinc, flat_map_app. cbn [flat_map].
  rewrite flat_map_app. cbn [flat_map]. rewrite E1, E2.
  repeat rewrite <- app_assoc. cbn [app]. reflexivity.
Qed.

Lemma entries_follow_root_order_witness :
  exists w,
    create_zip sample_size sample = Ok w
    /\ exists a b c,
         zip w
         = (a ++ mkEntry "client/src/App.tsx" "client/src/App.tsx"
                         (Regular "app")
              :: b ++ mkEntry "package.json" "package.json" (Regular "{}")
              :: c)%list.
Proof.
  destruct (entries_follow_root_order sample_size sample eq_refl eq_refl)
    as (w & Hrun & H).
  exists w. split; [assumption|].
  assert (Hw : w = mkWorld (zip w) (stdout w) (scanned w)) by now destruct w.
  pose proof Hrun as Hrun'. vm_compute in Hrun'. injection Hrun' as Hw'.
  apply (H [] "client/src" ["server"; "shared/schema.ts"] "package.json"
           ["tsconfig.json"; "drizzle.config.ts"; "tailwind.config.ts";
            "components.json"; "vite.config.ts"; "postcss.config.js"]
           _ _ "/App.tsx" "");
    try reflexivity; rewrite <- Hw'; cbn; tauto.
Defined.

(** ** The order inside a walk *)

Lemma append_inj_l (a x y : string) : a ++ x = a ++ y -> x = y.
Proof.
  induction a as [|c a IH]; cbn [append]; intros H; [assumption|].
  injection H as H. now apply IH.
Qed.

Lemma file_at_kept (root : string) (n : node) (above : list string)
  (p data : string) :
  file_at root n above p data -> wf n = true -> good_root root ->
  should_exclude p = false ->
  Forall (fun d => should_exclude d = false) (root :: above).
Proof.
  intros Hat Hwf Hg Hex.
  pose proof (file_at_prefix _ _ _ _ _ Hat Hwf Hg) as Hpre.
  rewrite Forall_forall in *. intros d Hd.
  destruct (Hpre d Hd) as [rest ->].
  destruct (should_exclude d) eqn:E; [|reflexivity].
  now rewrite (excluded_prefix _ rest E) in Hex.
Qed.

Lemma below_entries_segment (root : string) (es : list (string * node))
  (d : string) (sub : list (string * node)) :
  In (d, Dir sub) es -> should_exclude (join root d) = false ->
  exists pre post,
    below_entries root es
    = (pre ++ tree_entries (join root d) (Dir sub) ++ post)%list.
Proof.
  induction es as [|[k [data|sub']] es IH]; intros Hin Hex; [destruct Hin| |].
  - destruct Hin as [[=]|Hin]. cbn [below_entries]. now apply IH.
  - cbn [below_entries]. destruct Hin as [[= -> ->]|Hin].
    + rewrite Hex. cbn [negb]. now exists [], (below_entries root es).
    + destruct (IH Hin Hex) as (pre & post & ->).
      destruct (negb (should_exclude (join root k)));
        [|now exists pre, post].
      exists (tree_entries (join root k) (Dir sub') ++ pre)%list, post.
      now rewrite <- app_assoc.
Qed.

Lemma tree_top_down (root : string) (n : node) (above1 : list string)
  (p1 data1 : string) :
  file_at root n above1 p1 data1 ->
  forall d more p2 data2,
    wf n = true -> good_root root ->
    file_at root n (above1 ++ d :: more) p2 data2 ->
    should_exclude p1 = false -> should_exclude p2 = false ->
    exists a b c,
      tree_entries root n
      = (a ++ mkEntry p1 p1 (Regular data1)
           :: b ++ mkEntry p2 p2 (Regular data2) :: c)%list.
Proof.
  induction 1 as [root es name data1 Hin
                 |root es d1 sub1 above1 p1 data1 Hin Hat IH];
    intros d more p2 data2 Hwf Hg H2 Hex1 Hex2;
    pose proof Hwf as Hwf'; rewrite wf_Dir, !andb_true_iff in Hwf';
    destruct Hwf' as [[Hv Hd] Hes]; rewrite tree_entries_Dir.
  - assert (H1 : In (mkEntry (join root name) (join root name) (Regular data1))
                    (level_entries root es)).
    { apply level_entries_In. exists name, data1. auto. }
    assert (Hb : In (mkEntry p2 p2 (Regular data2)) (below_entries root es)).
    { cbn [app] in H2. inversion H2 as [|? ? d2 sub2 ? ? ? Hin2 Hat2]; subst.
      destruct sub2 as [data|sub2]; [inversion Hat2|].
      pose proof (valid_name_part _ (valid_names_In _ _ _ Hv Hin2)) as Hp.
      assert (Hg2 : good_root (join root d2))
        by (rewrite (join_good _ _ Hg Hp); now apply good_root_snoc).
      pose proof (file_at_kept _ _ _ _ _ Hat2 (wf_entries_In _ _ _ Hes Hin2)
                    Hg2 Hex2) as Hk.
      inversion Hk as [|? ? Hk1 Hk2]; subst.
      apply below_entries_In. exists d2, sub2. repeat split; auto.
      now apply (file_at_tree_entries _ _ more). }
    apply in_split in H1. destruct H1 as (x1 & y1 & ->).
    apply in_split in Hb. destruct Hb as (x2 & y2 & ->).
    exists x1, (y1 ++ x2)%list, y2.
    repeat rewrite <- app_assoc. cbn [app]. repeat rewrite <- app_assoc.
    reflexivity.
  - cbn [app] in H2. inversion H2 as [|? ? d2 sub2 ? ? ? Hin2 Hat2]; subst.
    match goal with H : join _ d2 = join _ d1 |- _ => rename H into E end.
    pose proof (valid_name_part _ (valid_names_In _ _ _ Hv Hin)) as Hp1.
    pose proof (valid_name_part _ (valid_names_In _ _ _ Hv Hin2)) as Hp2.
    assert (d2 = d1).
    { rewrite (join_good _ _ Hg Hp1), (join_good _ _ Hg Hp2) in E.
      apply append_inj_l in E. now apply (append_inj_l "/"). }
    subst d2. apply distinct_NoDup in Hd.
    pose proof (assoc_In _ _ _ Hd Hin) as A1.
    pose proof (assoc_In _ _ _ Hd Hin2) as A2.
    rewrite A1 in A2. injection A2 as <-.
    assert (Hg1 : good_root (join root d1))
      by (rewrite (join_good _ _ Hg Hp1); now apply good_root_snoc).
    pose proof (wf_entries_In _ _ _ Hes Hin) as Hwf1.
    destruct (IH d more p2 data2 Hwf1 Hg1 Hat2 Hex1 Hex2) as (a & b & c & Hsub).
    destruct sub1 as [data|sub1]; [inversion Hat|].
    pose proof (file_at_kept _ _ _ _ _ Hat Hwf1 Hg1 Hex1) as Hk.
    inversion Hk as [|? ? Hk1 Hk2]; subst.
    destruct (below_entries_segment root es d1 sub1 Hin Hk1)
      as (pre & post & ->).
    rewrite Hsub.
    exists (level_entries root es ++ pre ++ a)%list, b, (c ++ post)%list.
    repeat rewrite <- app_assoc. cbn [app].
    repeat rewrite <- app_assoc. cbn [app]. repeat rewrite <- app_assoc.
    reflexivity.
Qed.

Lemma flat_map_segment {A B : Type} (f : A -> list B) (l : list A) (x : A) :
  In x l -> exists pre post, flat_map f l = (pre ++ f x ++ post)%list.
Proof.
  intros H. apply in_split in H. destruct H as (l1 & l2 & ->).
  exists (flat_map f l1), (flat_map f l2).
  now rewrite flat_map_app.
Qed.

(** The walk is top-down: on a well-formed tree in which the archive can be
    opened, the run completes and, inside a root directory, the files of a
    directory are written before every file that lies deeper under it, in
    whatever order the directory lists its files and sub-directories. *)
Theorem files_of_a_directory_precede_deeper_files
  (getsize : list entry -> N) (fs : node) :
  wf fs = true -> can_open fs = true ->
  exists w,
    create_zip getsize fs = Ok w
    /\ forall root above d more p1 data1 p2 data2,
         reachable fs includes (root :: above) p1 data1 ->
         reachable fs includes (root :: above ++ d :: more)%list p2 data2 ->
         should_exclude p1 = false -> should_exclude p2 = false ->
         exists a b c,
           zip w = (a ++ mkEntry p1 p1 (Regular data1)
                      :: b ++ mkEntry p2 p2 (Regular data2) :: c)%list.
Proof.
  intros Hwf Hopen.
  destruct (create_zip_run getsize fs Hwf Hopen) as (w & Hrun & Hz & _).
  exists w. split; [assumption|].
  intros root above d more p1 data1 p2 data2 H1 H2 Hex1 Hex2.
  inversion H1 as [|i1 es1 ? ? ? Hi1 Hl1 Hat1]; subst.
  inversion H2 as [|i2 es2 ? ? ? Hi2 Hl2 Hat2 E]; subst.
  rewrite (includes_normal _ Hi1) in *. rewrite (includes_normal _ Hi2) in *.
  subst i2. rewrite Hl1 in Hl2. injection Hl2 as <-.
  assert (Hg : good_root i1).
  { rewrite <- (includes_normal _ Hi1). apply good_root_str, Path_parts. }
  destruct (tree_top_down _ _ _ _ _ Hat1 d more p2 data2
              (lookup_wf _ _ _ Hwf Hl1) Hg Hat2 Hex1 Hex2)
    as (a & b & c & Ht).
  destruct (flat_map_segment (root_entries fs) includes i1 Hi1)
    as (pre & post & Hf).
  assert (Hr : root_entries fs i1 = tree_entries i1 (Dir es1)).
  { unfold root_entries. cbv zeta. rewrite Hl1.
    now rewrite (includes_normal _ Hi1). }
  rewrite Hz, Hf, Hr, Ht.
  exists (pre ++ a)%list, b, (c ++ post)%list.
  repeat rewrite <- app_assoc. cbn [app].
  repeat rewrite <- app_assoc. cbn [app]. repeat rewrite <- app_assoc.
  reflexivity.
Qed.

Lemma files_of_a_directory_precede_witness :
  exists w,
    create_zip sample_size
      (Dir [("server", Dir [("lib", Dir [("util.ts", File "util")]);
                            ("index.ts", File "main")])]) = Ok w
    /\ exists a b c,
         zip w
         = (a ++ mkEntry "server/index.ts" "server/index.ts" (Regular "main")
              :: b ++ mkEntry "server/lib/util.ts" "server/lib/util.ts"
                        (Regular "util") :: c)%list.
Proof.
  destruct (files_of_a_directory_precede_deeper_files sample_size
              (Dir [("server", Dir [("lib", Dir [("util.ts", File "util")]);
                                    ("index.ts", File "main")])]) eq_refl eq_refl)
    as (w & Hrun & H).
  exists w. split; [assumption|].
  apply (H "server" [] "server/lib" [] "server/index.ts" "main"
           "server/lib/util.ts" "util"); try reflexivity.
  - eapply (reach_below _ includes "server");
      [right; now left | reflexivity |].
    apply (file_here "server" _ "index.ts" "main"). right. now left.
  - eapply (reach_below _ includes "server");
      [right; now left | reflexivity |].
    eapply file_below with (d := "lib"); [now left|].
    apply (file_here "server/lib" _ "util.ts" "util"). now left.
Defined.

(** ** The archive and its own file *)

(** The archive never holds itself: on a well-formed tree in which the
    archive can be opened, the run completes and no entry has the name of
    the output file, "clean-machine-core.zip", anywhere in its path, so a
    run in a directory where an earlier archive was left, at any depth, does
    not pack that archive again. *)
Theorem archive_never_holds_itself (getsize : list entry -> N) (fs : node) :
  wf fs = true -> can_open fs = true ->
  exists w,
    create_zip getsize fs = Ok w
    /\ forall e a b, In e (zip w) -> arcname e <> a ++ zip_filename ++ b.
Proof.
  intros Hwf Hopen.
  destruct (create_zip_run getsize fs Hwf Hopen) as (w & Hrun & Hz & _).
  exists w. split; [assumption|]. intros e a b He Heq. rewrite Hz in He.
  destruct (root_entries_reachable _ _ _ He) as (_ & _ & _ & _ & Hex).
  rewrite Heq, (should_exclude_inside a zip_filename b eq_refl) in Hex.
  discriminate.
Qed.

Lemma archive_never_holds_itself_witness :
  exists w,
    create_zip sample_size
      (Dir [("server", Dir [("clean-machine-core.zip", File "old");
                            ("index.ts", File "main")])]) = Ok w
    /\ forall e, In e (zip w) ->
         arcname e <> "server/clean-machine-core.zip".
Proof.
  destruct (archive_never_holds_itself sample_size
              (Dir [("server", Dir [("clean-machine-core.zip", File "old");
                                    ("index.ts", File "main")])]) eq_refl eq_refl)
    as (w & Hrun & H).
  exists w. split; [assumption|]. intros e He.
  exact (H e "server/" "" He).
Defined.

(** ** Where the run does not complete *)

(** On a well-formed tree the run completes exactly where the archive can
    be opened; where the name of the archive is that of a directory of the
    working directory, the open raises [IsADirectoryError], before any root
    is looked at. *)
Theorem run_completes_iff_archive_can_be_opened
  (getsize : list entry -> N) (fs : node) :
  wf fs = true ->
  ((exists w, create_zip getsize fs = Ok w) <-> can_open fs = true)
  /\ (is_dir fs (Path zip_filename) = true ->
      create_zip getsize fs = Raise "IsADirectoryError").
Proof.
  intros Hwf.
  assert (Hdir : is_dir fs (Path zip_filename) = true ->
                 create_zip getsize fs = Raise "IsADirectoryError").
  { unfold is_dir. change (Path zip_filename) with [zip_filename].
    destruct fs as [data|es]; cbn [lookup]; [discriminate|].
    unfold create_zip, ZipFile.
    destruct (assoc zip_filename es) as [[data|sub]|];
      [discriminate | reflexivity | discriminate]. }
  split; [|exact Hdir]. split.
  - intros [w Hrun]. unfold can_open.
    destruct fs as [data|es]; [discriminate Hrun|].
    destruct (is_dir (Dir es) (Path zip_filename)) eqn:E; [|reflexivity].
    rewrite (Hdir eq_refl) in Hrun. discriminate Hrun.
  - intros Hopen.
    destruct (create_zip_run getsize fs Hwf Hopen) as (w & Hrun & _).
    now exists w.
Qed.

Lemma run_completes_iff_witness :
  create_zip sample_size
    (Dir [("package.json", File "{}"); ("clean-machine-core.zip", Dir [])])
  = Raise "IsADirectoryError"
  /\ ~ exists w,
        create_zip sample_size
          (Dir [("package.json", File "{}");
                ("clean-machine-core.zip", Dir [])]) = Ok w.
Proof.
  destruct (run_completes_iff_archive_can_be_opened sample_size
              (Dir [("package.json", File "{}");
                    ("clean-machine-core.zip", Dir [])]) eq_refl)
    as [Hiff Hraise].
  split; [exact (Hraise eq_refl)|].
  intros Hex. apply Hiff in Hex. discriminate Hex.
Defined.
